(** * Grayscale statistics: [process_gray] of [mylib.cpp]

    A shallow embedding of the native routine that computes the mean and
    the population standard deviation of an 8-bit grayscale buffer, and
    the properties of it that the specification states.

    Floating point is modelled bit-exactly with the IEEE 754 specification
    of the standard library ([SpecFloat]): [double] is binary64, [float]
    is binary32, every operation rounds to nearest, ties to even.  Each
    C++ operation is rounded on its own (no fused multiply-add). *)

From Stdlib Require Import ZArith QArith List Bool Lia Permutation.
From Stdlib Require Import Strings.Byte.
From Stdlib Require Import Floats.SpecFloat.
Import ListNotations.
Local Open Scope Z_scope.

(** ** Machine integers *)

(** A value converted to a signed [w]-bit integer, two's complement. *)
Definition sint (w z : Z) : Z := (z + 2 ^ (w - 1)) mod 2 ^ w - 2 ^ (w - 1).

Definition int64_t (z : Z) : Z := sint 64 z.
Definition int32_t (z : Z) : Z := sint 32 z.

Definition is_int32 (z : Z) : Prop := - 2 ^ 31 <= z < 2 ^ 31.

(** ** Floating-point formats *)

(** [double]: IEEE 754 binary64. *)
Module F64.
Definition prec : Z := 53.
Definition emax : Z := 1024.
Definition zero : spec_float := S754_zero false.
Definition add : spec_float -> spec_float -> spec_float := SFadd prec emax.
Definition sub : spec_float -> spec_float -> spec_float := SFsub prec emax.
Definition mul : spec_float -> spec_float -> spec_float := SFmul prec emax.
Definition div : spec_float -> spec_float -> spec_float := SFdiv prec emax.
Definition sqrt : spec_float -> spec_float := SFsqrt prec emax.
(** Conversion of an integer, [(double)n]. *)
Definition of_int (n : Z) : spec_float := binary_normalize prec emax n 0 false.
End F64.

(** [float]: IEEE 754 binary32. *)
Module F32.
Definition prec : Z := 24.
Definition emax : Z := 128.
Definition zero : spec_float := S754_zero false.
(** Narrowing conversion [(float)x] of a double. *)
Definition of_double (x : spec_float) : spec_float :=
  match x with
  | S754_finite s m e => binary_normalize prec emax (cond_Zopp s (Zpos m)) e s
  | _ => x
  end.
Definition of_int (n : Z) : spec_float := binary_normalize prec emax n 0 false.
End F32.

(** The rational number a float stands for; nothing for infinities and NaN. *)
Definition SF2Q (x : spec_float) : option Q :=
  match x with
  | S754_zero _ => Some 0%Q
  | S754_finite s m e => Some (inject_Z (cond_Zopp s (Zpos m)) * Qpower 2 e)%Q
  | _ => None
  end.

Definition has_value (x : spec_float) (q : Q) : Prop :=
  match SF2Q x with
  | Some v => Qeq v q
  | None => False
  end.

(** The integer value of a [uint8_t] sample and its conversion to [double]
    (integral promotion to [int], then int to double). *)
Definition u8 (v : byte) : Z := Z.of_N (Byte.to_N v).
Definition double_of_u8 (v : byte) : spec_float := F64.of_int (u8 v).

(** ** Memory and the effects of the routine *)

(** [const uint8_t* data]: the null pointer, or a pointer to the first byte
    of a readable block.  Offsets are counted from that first byte. *)
Definition pointer : Type := option (list byte).

Definition is_null (p : pointer) : bool :=
  match p with None => true | Some _ => false end.

Definition read_u8 (buf : list byte) (off : Z) : option byte :=
  if off <? 0 then None else nth_error buf (Z.to_nat off).

(** The routine reads memory and nothing else.  A computation threads the
    log of the offsets it has read (latest first) and is undefined ([None])
    as soon as it reads through a null pointer or outside the block. *)
Definition trace : Type := list Z.
Definition M (A : Type) : Type := trace -> option (A * trace).

Definition ret {A} (x : A) : M A := fun t => Some (x, t).

Definition bind {A B} (m : M A) (f : A -> M B) : M B :=
  fun t => match m t with
           | Some (x, t') => f x t'
           | None => None
           end.

Notation "x <- m ;; k" := (bind m (fun x => k))
  (at level 61, m at next level, right associativity).

Definition load (p : pointer) (off : Z) : M byte :=
  fun t => match p with
           | None => None
           | Some buf => match read_u8 buf off with
                         | Some v => Some (v, off :: t)
                         | None => None
                         end
           end.

(** [for (int i = 0; i < hi; i++) s = body i s;]  The counter never
    overflows: it is incremented only while below [hi]. *)
Fixpoint for_loop {S} (count : nat) (i : Z) (body : Z -> S -> M S) (s : S) : M S :=
  match count with
  | O => ret s
  | Datatypes.S k => s' <- body i s ;; for_loop k (i + 1) body s'
  end.

Definition for_int {S} (hi : Z) (body : Z -> S -> M S) (s : S) : M S :=
  for_loop (Z.to_nat hi) 0 body s.

(** ** The routine *)

Record Result : Type := { a : spec_float; b : spec_float }.

Definition zero_result : Result := {| a := F32.of_int 0; b := F32.of_int 0 |}.

(** [(int64_t)width * height] *)
Definition sample_count (width height : Z) : Z :=
  int64_t (int64_t width * int64_t height).

(** [(int64_t)y * rowStride] *)
Definition row_offset (y rowStride : Z) : Z :=
  int64_t (int64_t y * int64_t rowStride).

Definition degenerate (data : pointer) (width height rowStride : Z) : bool :=
  is_null data || (width <=? 0) || (height <=? 0) || (rowStride <=? 0).

Definition process_gray_m (data : pointer) (width height rowStride : Z) : M Result :=
  let r := zero_result in
  if degenerate data width height rowStride then ret r else
  (* mean *)
  let n := sample_count width height in
  sum <- for_int height (fun y sum =>
           let row := row_offset y rowStride in
           for_int width (fun x sum =>
             v <- load data (row + x) ;;
             ret (F64.add sum (double_of_u8 v))) sum) F64.zero ;;
  let mean := F64.div sum (F64.of_int n) in
  (* std *)
  var <- for_int height (fun y var =>
           let row := row_offset y rowStride in
           for_int width (fun x var =>
             v <- load data (row + x) ;;
             let d := F64.sub (double_of_u8 v) mean in
             ret (F64.add var (F64.mul d d))) var) F64.zero ;;
  let var := F64.div var (F64.of_int n) in
  ret {| a := F32.of_double mean; b := F32.of_double (F64.sqrt var) |}.

(** What the caller sees: the returned struct, or nothing when the call
    has undefined behaviour. *)
Definition process_gray (data : pointer) (width height rowStride : Z) : option Result :=
  option_map fst (process_gray_m data width height rowStride []).

(** The offsets read by a call, oldest first. *)
Definition reads_of (data : pointer) (width height rowStride : Z) : option (list Z) :=
  option_map (fun rt => rev (snd rt)) (process_gray_m data width height rowStride []).

(** ** The specification's reading of the same computation *)

(** The integers [i, i+1, ..., i+n-1]. *)
Fixpoint zrange (n : nat) (i : Z) : list Z :=
  match n with
  | O => []
  | Datatypes.S k => i :: zrange k (i + 1)
  end.

Definition upto (hi : Z) : list Z := zrange (Z.to_nat hi) 0.

(** Offsets of the samples of the [width x height] region, row by row:
    sample [(y, x)] lives at [y * rowStride + x]. *)
Definition region_offsets (width height rowStride : Z) : list Z :=
  flat_map (fun y => map (fun x => y * rowStride + x) (upto width)) (upto height).

Fixpoint read_all (buf : list byte) (offs : list Z) : option (list byte) :=
  match offs with
  | [] => Some []
  | o :: rest =>
      match read_u8 buf o with
      | Some v => option_map (cons v) (read_all buf rest)
      | None => None
      end
  end.

(** [sample[y][x]] for [y] in [0, height) and [x] in [0, width), in row-major
    order; [None] when one of them lies outside the block. *)
Definition samples (buf : list byte) (width height rowStride : Z) : option (list byte) :=
  read_all buf (region_offsets width height rowStride).

(** Sum of the samples, accumulated in double precision. *)
Definition double_sum (l : list byte) : spec_float :=
  fold_left (fun s v => F64.add s (double_of_u8 v)) l F64.zero.

(** [(1/N) * sum(sample)], the quotient of the double sum by [N]. *)
Definition spec_mean_double (l : list byte) (N : Z) : spec_float :=
  F64.div (double_sum l) (F64.of_int N).

Definition spec_mean (l : list byte) (N : Z) : spec_float :=
  F32.of_double (spec_mean_double l N).

(** Sum of the squared deviations from [mean], accumulated in double
    precision. *)
Definition sq_dev_sum (mean : spec_float) (l : list byte) : spec_float :=
  fold_left (fun s v => let d := F64.sub (double_of_u8 v) mean in
                        F64.add s (F64.mul d d)) l F64.zero.

(** [sqrt((1/N) * sum((sample - mean)^2))] with the mean of the first pass. *)
Definition spec_stddev (l : list byte) (N : Z) : spec_float :=
  F32.of_double
    (F64.sqrt (F64.div (sq_dev_sum (spec_mean_double l N) l) (F64.of_int N))).

(** The buffer is readable for [(height-1)*rowStride + width] bytes. *)
Definition readable (buf : list byte) (width height rowStride : Z) : Prop :=
  (height - 1) * rowStride + width <= Z.of_nat (length buf).

(** Valid input: strictly positive 32-bit geometry over a readable block. *)
Definition valid_input (buf : list byte) (width height rowStride : Z) : Prop :=
  is_int32 width /\ is_int32 height /\ is_int32 rowStride /\
  0 < width /\ 0 < height /\ 0 < rowStride /\
  readable buf width height rowStride.

(** ** Definitions used by the proofs *)

(** A computation behaves as a fold of [g] over the bytes at [offs]. *)
Definition folds {S : Type} (buf : list byte) (g : S -> byte -> S)
  (c : S -> M S) (offs : list Z) : Prop :=
  forall s t,
    c s t = option_map (fun bs => (fold_left g bs s, rev offs ++ t))
                       (read_all buf offs).

(** The struct returned for the samples [bs] of a region of [N] samples. *)
Definition stats (bs : list byte) (N : Z) : Result :=
  {| a := spec_mean bs N; b := spec_stddev bs N |}.

(** [rne M k]: the integer nearest to [M / 2^k], ties to even. *)
Definition rne (M k : Z) : Z :=
  let q := M / 2 ^ k in
  match 2 * (M mod 2 ^ k) ?= 2 ^ k with
  | Lt => q
  | Eq => if Z.even q then q else q + 1
  | Gt => q + 1
  end.

(** [mrs] is what remains of [M] after [k] right shifts. *)
Definition shifted (M k : Z) (mrs : shr_record) : Prop :=
  0 <= M /\ 0 <= k /\ shr_m mrs = M / 2 ^ k /\
  (k = 0 -> shr_r mrs = false /\ shr_s mrs = false) /\
  (0 < k -> shr_r mrs = Z.odd (M / 2 ^ (k - 1)) /\
            shr_s mrs = negb (M mod 2 ^ (k - 1) =? 0)).

(** A quotient with its location is a number with two more bits. *)
Definition loc_bits (l : location) : Z :=
  match l with
  | loc_Exact => 0
  | loc_Inexact Lt => 1
  | loc_Inexact Eq => 2
  | loc_Inexact Gt => 3
  end.

(** The float with sign [s], mantissa [m] and exponent [e]. *)
Definition mk_float (prec emax : Z) (s : bool) (m e : Z) : spec_float :=
  match m with
  | Z0 => S754_zero s
  | Zpos p => if e <=? emax - prec then S754_finite s p e else S754_infinity s
  | Zneg _ => S754_nan
  end.

(** [x] is a number (not a NaN) whose sign bit is [s]. *)
Definition has_sign (s : bool) (x : spec_float) : Prop :=
  match x with
  | S754_zero s' | S754_infinity s' | S754_finite s' _ _ => s' = s
  | S754_nan => False
  end.

Definition is_nan (x : spec_float) : bool :=
  match x with S754_nan => true | _ => false end.

Definition is_finite (x : spec_float) : bool :=
  match x with S754_zero _ | S754_finite _ _ _ => true | _ => false end.

(** [x] is a strictly positive finite number. *)
Definition is_pos_finite (x : spec_float) : bool :=
  match x with S754_finite false _ _ => true | _ => false end.

(** The normal float of value [m0 * 2^e], for [m0] of at most [prec] bits. *)
Definition norm (prec emax : Z) (s : bool) (m0 e : Z) : spec_float :=
  mk_float prec emax s (m0 * 2 ^ (prec - Zdigits2 m0)) (e + Zdigits2 m0 - prec).

(** The double of integer value [n], for [0 < n < 2^53]. *)
Definition double_of_nat53 (n : Z) : spec_float :=
  S754_finite false (Z.to_pos (n * 2 ^ (53 - Zdigits2 n))) (Zdigits2 n - 53).

(** [x] is a positive normal float of precision [prec], of exponent at least
    [lo] and of value at most [K]. *)
Definition normal_le (prec lo K : Z) (x : spec_float) : Prop :=
  exists m e, x = S754_finite false m e /\
              2 ^ (prec - 1) <= Zpos m < 2 ^ prec /\ lo <= e /\
              Zpos m * 2 ^ (e - lo) <= K * 2 ^ (- lo).

(** [x] is a positive normal float of precision [prec], of exponent at least
    [lo] and of value at least [K]. *)
Definition normal_ge (prec lo K : Z) (x : spec_float) : Prop :=
  exists m e, x = S754_finite false m e /\
              2 ^ (prec - 1) <= Zpos m < 2 ^ prec /\ lo <= e /\
              K * 2 ^ (- lo) <= Zpos m * 2 ^ (e - lo).

(** The float 255.0. *)
Definition f255 : spec_float := F32.of_int 255.

(** The sum of the samples, as an integer. *)
Fixpoint total (l : list byte) : Z :=
  match l with
  | [] => 0
  | v :: rest => u8 v + total rest
  end.

(** A buffer of [2^46] bytes, all 255, seen as [2^23] rows of [2^23]
    samples without padding. *)
Definition saturated_buffer : list byte := repeat xff (Z.to_nat (2 ^ 46)).

(** * Proofs *)

(** ** Machine integers: the 64-bit products are exact *)

Lemma sint_id w z : 0 < w -> - 2 ^ (w - 1) <= z < 2 ^ (w - 1) -> sint w z = z.
Proof.
  intros Hw Hz. unfold sint.
  assert (E : 2 ^ w = 2 * 2 ^ (w - 1)).
  { replace w with (Z.succ (w - 1)) at 1 by lia. apply Z.pow_succ_r. lia. }
  rewrite Z.mod_small; lia.
Qed.

Lemma int64_t_id z : - 2 ^ 63 <= z < 2 ^ 63 -> int64_t z = z.
Proof. intros H. apply sint_id; [lia | exact H]. Qed.

Lemma sample_count_exact w h :
  is_int32 w -> is_int32 h -> sample_count w h = w * h.
Proof.
  unfold is_int32, sample_count. intros Hw Hh.
  rewrite (int64_t_id w), (int64_t_id h) by lia.
  apply int64_t_id. nia.
Qed.

Lemma row_offset_exact y rs :
  is_int32 y -> is_int32 rs -> row_offset y rs = y * rs.
Proof.
  unfold is_int32, row_offset. intros Hy Hr.
  rewrite (int64_t_id y), (int64_t_id rs) by lia.
  apply int64_t_id. nia.
Qed.

(** ** Loops as folds over the offsets they visit *)

Lemma In_zrange n : forall i y, In y (zrange n i) <-> i <= y < i + Z.of_nat n.
Proof.
  induction n as [|n IH]; intros i y; simpl zrange.
  - simpl. lia.
  - simpl In. rewrite IH. lia.
Qed.

Lemma In_upto hi y : In y (upto hi) <-> 0 <= y < hi.
Proof. unfold upto. rewrite In_zrange. lia. Qed.

Lemma length_zrange n : forall i, length (zrange n i) = n.
Proof. induction n; intros; simpl; congruence. Qed.

Lemma In_region_offsets w h rs o :
  In o (region_offsets w h rs) <->
  exists y x, 0 <= y < h /\ 0 <= x < w /\ o = y * rs + x.
Proof.
  unfold region_offsets. rewrite in_flat_map. split.
  - intros (y & Hy & Ho). apply in_map_iff in Ho. destruct Ho as (x & <- & Hx).
    apply In_upto in Hy, Hx. eauto.
  - intros (y & x & Hy & Hx & ->). exists y. split; [now apply In_upto|].
    apply in_map_iff. exists x. split; [reflexivity | now apply In_upto].
Qed.

Lemma read_all_app buf l1 l2 :
  read_all buf (l1 ++ l2) =
  match read_all buf l1 with
  | Some b1 => option_map (app b1) (read_all buf l2)
  | None => None
  end.
Proof.
  induction l1 as [|o l1 IH]; simpl.
  - destruct (read_all buf l2); reflexivity.
  - destruct (read_u8 buf o); [|reflexivity].
    rewrite IH. destruct (read_all buf l1); simpl; [|reflexivity].
    destruct (read_all buf l2); reflexivity.
Qed.

Lemma read_all_ext buf1 buf2 offs :
  (forall o, In o offs -> read_u8 buf1 o = read_u8 buf2 o) ->
  read_all buf1 offs = read_all buf2 offs.
Proof.
  induction offs as [|o offs IH]; intros H; simpl; [reflexivity|].
  rewrite (H o) by (left; reflexivity).
  rewrite IH by (intros; apply H; right; assumption). reflexivity.
Qed.

Lemma read_all_some buf offs :
  (forall o, In o offs -> 0 <= o < Z.of_nat (length buf)) ->
  exists bs, read_all buf offs = Some bs.
Proof.
  induction offs as [|o offs IH]; intros H; simpl; [eauto|].
  destruct IH as [bs E]; [intros; apply H; right; assumption|].
  assert (Ho : 0 <= o < Z.of_nat (length buf)) by (apply H; left; reflexivity).
  unfold read_u8. destruct (Z.ltb_spec o 0); [lia|].
  destruct (nth_error buf (Z.to_nat o)) eqn:En.
  - rewrite E. simpl. eauto.
  - apply nth_error_None in En. lia.
Qed.

Lemma length_read_all buf offs bs :
  read_all buf offs = Some bs -> length bs = length offs.
Proof.
  revert bs. induction offs as [|o offs IH]; simpl; intros bs E.
  - now inversion E.
  - destruct (read_u8 buf o); [|discriminate].
    destruct (read_all buf offs) as [bs'|]; simpl in E; [|discriminate].
    inversion E. simpl. f_equal. now apply IH.
Qed.

Section Loops.
Context {S : Type} (buf : list byte) (g : S -> byte -> S).

Lemma folds_load (f : Z -> Z) n :
  forall i, folds buf g (for_loop n i (fun x s => v <- load (Some buf) (f x) ;; ret (g s v)))
                  (map f (zrange n i)).
Proof.
  induction n as [|n IH]; intros i s t; simpl.
  - reflexivity.
  - unfold bind at 1. unfold bind at 1. unfold load.
    destruct (read_u8 buf (f i)) as [v|]; [|reflexivity].
    unfold ret at 1. rewrite IH.
    destruct (read_all buf (map f (zrange n (i + 1)))); simpl; [|reflexivity].
    rewrite <- app_assoc. reflexivity.
Qed.

Lemma folds_rows (offs : Z -> list Z) (body : Z -> S -> M S) n :
  forall i,
    (forall y, In y (zrange n i) -> folds buf g (body y) (offs y)) ->
    folds buf g (for_loop n i body) (flat_map offs (zrange n i)).
Proof.
  induction n as [|n IH]; intros i H s t; simpl.
  - reflexivity.
  - unfold bind. rewrite (H i) by (left; reflexivity).
    rewrite read_all_app.
    destruct (read_all buf (offs i)) as [b1|]; simpl; [|reflexivity].
    rewrite IH by (intros; apply H; right; assumption).
    destruct (read_all buf (flat_map offs (zrange n (i + 1)))); simpl; [|reflexivity].
    rewrite fold_left_app, rev_app_distr, <- app_assoc. reflexivity.
Qed.

(** The two nested loops of a pass. *)
Lemma folds_pass width height rowStride :
  is_int32 height -> is_int32 rowStride ->
  folds buf g (for_int height (fun y s =>
           let row := row_offset y rowStride in
           for_int width (fun x s =>
             v <- load (Some buf) (row + x) ;; ret (g s v)) s))
        (region_offsets width height rowStride).
Proof.
  intros Hh Hr. unfold for_int, region_offsets, upto.
  apply folds_rows. intros y Hy. cbv zeta.
  apply In_zrange in Hy.
  rewrite row_offset_exact by (unfold is_int32 in *; lia).
  intros s t. apply (folds_load (fun x => y * rowStride + x)).
Qed.
End Loops.

(** ** The routine as two folds over the region *)

Lemma degenerate_false buf w h rs :
  0 < w -> 0 < h -> 0 < rs -> degenerate (Some buf) w h rs = false.
Proof.
  intros. unfold degenerate. simpl.
  destruct (Z.leb_spec w 0), (Z.leb_spec h 0), (Z.leb_spec rs 0);
    try lia; reflexivity.
Qed.

Lemma process_gray_m_folds buf w h rs t :
  is_int32 w -> is_int32 h -> is_int32 rs -> 0 < w -> 0 < h -> 0 < rs ->
  process_gray_m (Some buf) w h rs t =
  option_map
    (fun bs => (stats bs (w * h),
                rev (region_offsets w h rs) ++ rev (region_offsets w h rs) ++ t))
    (samples buf w h rs).
Proof.
  intros Iw Ih Ir Hw Hh Hr. unfold process_gray_m.
  rewrite degenerate_false by assumption.
  rewrite sample_count_exact by assumption.
  unfold bind at 1.
  rewrite (folds_pass buf (fun s v => F64.add s (double_of_u8 v)) w h rs Ih Ir).
  unfold samples.
  destruct (read_all buf (region_offsets w h rs)) as [bs|] eqn:E; simpl; [|reflexivity].
  unfold bind at 1.
  rewrite (folds_pass buf
             (fun s v => let d := F64.sub (double_of_u8 v)
                                    (F64.div (fold_left (fun s v => F64.add s (double_of_u8 v)) bs F64.zero)
                                       (F64.of_int (w * h))) in
                         F64.add s (F64.mul d d)) w h rs Ih Ir).
  rewrite E. reflexivity.
Qed.

Lemma valid_samples buf w h rs :
  valid_input buf w h rs -> exists bs, samples buf w h rs = Some bs.
Proof.
  intros (Iw & Ih & Ir & Hw & Hh & Hr & Hb). unfold readable in Hb.
  apply read_all_some. intros o Ho.
  apply In_region_offsets in Ho. destruct Ho as (y & x & Hy & Hx & ->).
  nia.
Qed.

Lemma process_gray_valid buf w h rs :
  valid_input buf w h rs ->
  exists bs, samples buf w h rs = Some bs /\
             process_gray (Some buf) w h rs = Some (stats bs (w * h)).
Proof.
  intros V. destruct (valid_samples _ _ _ _ V) as [bs E].
  destruct V as (Iw & Ih & Ir & Hw & Hh & Hr & Hb).
  exists bs. split; [exact E|].
  unfold process_gray. rewrite process_gray_m_folds by assumption.
  rewrite E. reflexivity.
Qed.

(** ** Rounding to nearest even, arithmetically *)

Lemma pow2_pos k : 0 <= k -> 0 < 2 ^ k.
Proof. intros. apply Z.pow_pos_nonneg; lia. Qed.

Lemma pow2_succ k : 0 <= k -> 2 ^ (k + 1) = 2 * 2 ^ k.
Proof. intros. rewrite Z.pow_add_r by lia. lia. Qed.

Lemma pow2_split a b : 0 <= a <= b -> 2 ^ b = 2 ^ a * 2 ^ (b - a).
Proof. intros. rewrite <- Z.pow_add_r by lia. f_equal. lia. Qed.

Lemma pow2_le a b : 0 <= a <= b -> 2 ^ a <= 2 ^ b.
Proof. intros. apply Z.pow_le_mono_r; lia. Qed.

Lemma pow2_lt a b : 0 <= a < b -> 2 ^ a < 2 ^ b.
Proof. intros. apply Z.pow_lt_mono_r; lia. Qed.

Lemma rne_0 M : rne M 0 = M.
Proof.
  unfold rne. rewrite Z.pow_0_r, Z.mod_1_r, Z.div_1_r. reflexivity.
Qed.

Lemma rne_bounds M k : 0 <= k -> M / 2 ^ k <= rne M k <= M / 2 ^ k + 1.
Proof.
  intros Hk. unfold rne.
  destruct (2 * (M mod 2 ^ k) ?= 2 ^ k); [destruct (Z.even _)| |]; lia.
Qed.

(** An exact multiple is its own rounding. *)
Lemma rne_exact m k : 0 <= k -> rne (m * 2 ^ k) k = m.
Proof.
  intros Hk. pose proof (pow2_pos k Hk) as P. unfold rne.
  rewrite Z.mod_mul, Z.div_mul by lia.
  destruct (Z.compare_spec (2 * 0) (2 ^ k)); try lia.
Qed.

(** Rounding never crosses a point of the grid. *)
Lemma rne_le M K k : 0 <= k -> M <= K * 2 ^ k -> rne M k <= K.
Proof.
  intros Hk HM. pose proof (pow2_pos k Hk) as P.
  pose proof (Z.div_mod M (2 ^ k) ltac:(lia)) as E.
  pose proof (Z.mod_pos_bound M (2 ^ k) P) as B.
  assert (Hq : M / 2 ^ k <= K).
  { apply Z.div_le_upper_bound; lia. }
  unfold rne.
  destruct (Z.compare_spec (2 * (M mod 2 ^ k)) (2 ^ k)) as [C|C|C].
  - destruct (Z.even (M / 2 ^ k)); [lia|].
    assert (M / 2 ^ k <> K) by nia. lia.
  - lia.
  - assert (M / 2 ^ k <> K) by nia. lia.
Qed.

Lemma rne_ge M K k : 0 <= k -> K * 2 ^ k <= M -> K <= rne M k.
Proof.
  intros Hk HM. pose proof (pow2_pos k Hk) as P.
  assert (Hq : K <= M / 2 ^ k).
  { apply Z.div_le_lower_bound; lia. }
  pose proof (rne_bounds M k Hk). lia.
Qed.

(** Trailing zero bits do not change the rounding. *)
Lemma rne_scale M j k : 0 <= j -> 0 <= k -> rne (M * 2 ^ j) (k + j) = rne M k.
Proof.
  intros Hj Hk. pose proof (pow2_pos k Hk) as Pk. pose proof (pow2_pos j Hj) as Pj.
  unfold rne. rewrite Z.pow_add_r by lia.
  rewrite Z.div_mul_cancel_r by lia.
  rewrite Zmult_mod_distr_r.
  replace (2 * (M mod 2 ^ k * 2 ^ j)) with (2 * (M mod 2 ^ k) * 2 ^ j) by ring.
  assert (C : (2 * (M mod 2 ^ k) * 2 ^ j ?= 2 ^ k * 2 ^ j) =
              (2 * (M mod 2 ^ k) ?= 2 ^ k)).
  { destruct (Z.compare_spec (2 * (M mod 2 ^ k)) (2 ^ k));
      [apply Z.compare_eq_iff | apply Z.compare_lt_iff | apply Z.compare_gt_iff]; nia. }
  rewrite C. reflexivity.
Qed.

(** ** Digits *)

Lemma digits2_pos_bounds p :
  2 ^ (Zpos (digits2_pos p) - 1) <= Zpos p < 2 ^ Zpos (digits2_pos p).
Proof.
  induction p as [p IH|p IH|]; simpl digits2_pos.
  - rewrite Pos2Z.inj_succ.
    replace (Z.succ (Zpos (digits2_pos p)) - 1) with (Zpos (digits2_pos p) - 1 + 1) by lia.
    unfold Z.succ. rewrite !pow2_succ by lia. lia.
  - rewrite Pos2Z.inj_succ.
    replace (Z.succ (Zpos (digits2_pos p)) - 1) with (Zpos (digits2_pos p) - 1 + 1) by lia.
    unfold Z.succ. rewrite !pow2_succ by lia. lia.
  - simpl. lia.
Qed.

Lemma digits2_pos_unique p d :
  2 ^ (d - 1) <= Zpos p < 2 ^ d -> Zpos (digits2_pos p) = d.
Proof.
  intros H. pose proof (digits2_pos_bounds p) as B.
  assert (0 < d).
  { destruct (Z.ltb_spec 0 d); [assumption|].
    destruct (Z.eq_dec d 0) as [->|]; [simpl in H; lia|].
    rewrite (Z.pow_neg_r 2 d) in H by lia. lia. }
  destruct (Z.lt_trichotomy (Zpos (digits2_pos p)) d) as [L|[E|G]]; [|exact E|].
  - assert (2 ^ Zpos (digits2_pos p) <= 2 ^ (d - 1)) by (apply pow2_le; lia). lia.
  - assert (2 ^ d <= 2 ^ (Zpos (digits2_pos p) - 1)) by (apply pow2_le; lia). lia.
Qed.

Lemma Zdigits2_unique m d :
  0 < m -> 2 ^ (d - 1) <= m < 2 ^ d -> Zdigits2 m = d.
Proof.
  intros Hm H. destruct m as [|p|p]; try lia.
  simpl. now apply digits2_pos_unique.
Qed.

Lemma Zdigits2_bounds m :
  0 < m -> 2 ^ (Zdigits2 m - 1) <= m < 2 ^ Zdigits2 m.
Proof.
  intros Hm. destruct m as [|p|p]; try lia. apply digits2_pos_bounds.
Qed.

Lemma Zdigits2_pos m : 0 < m -> 0 < Zdigits2 m.
Proof. intros Hm. destruct m; try lia. simpl. lia. Qed.

(** ** Right shifts with a round bit and a sticky bit *)

Lemma shr_1_nonneg m r s :
  0 <= m ->
  shr_1 {| shr_m := m; shr_r := r; shr_s := s |} =
  {| shr_m := m / 2; shr_r := Z.odd m; shr_s := r || s |}.
Proof.
  intros Hm. rewrite <- Z.div2_div.
  destruct m as [|p|p]; [reflexivity| |lia].
  destruct p; reflexivity.
Qed.

Lemma mod_pow2_succ M k :
  0 <= k -> M mod 2 ^ (k + 1) = M mod 2 ^ k + 2 ^ k * ((M / 2 ^ k) mod 2).
Proof.
  intros Hk. rewrite Z.pow_add_r, Z.pow_1_r by lia.
  apply Z.rem_mul_r; [pose proof (pow2_pos k Hk)|]; lia.
Qed.

Lemma shifted_shr_1 M k mrs : shifted M k mrs -> shifted M (k + 1) (shr_1 mrs).
Proof.
  destruct mrs as [m r s]. intros (HM & Hk & Hm & H0 & H1).
  simpl in Hm, H0, H1.
  pose proof (pow2_pos k Hk) as P.
  assert (0 <= m) by (subst m; apply Z.div_pos; lia).
  rewrite shr_1_nonneg by assumption.
  split; [assumption|]. split; [lia|]. simpl. split; [|split].
  - subst m. rewrite Z.div_div by lia. rewrite pow2_succ by lia.
    f_equal. lia.
  - intros; lia.
  - intros _. replace (k + 1 - 1) with k by lia. split; [now subst m|].
    destruct (Z.eq_dec k 0) as [->|Hk0].
    + destruct (H0 eq_refl) as [-> ->]. rewrite Z.pow_0_r, Z.mod_1_r. reflexivity.
    + destruct (H1 ltac:(lia)) as [-> ->].
      replace k with (k - 1 + 1) at 3 by lia.
      rewrite mod_pow2_succ by lia.
      pose proof (pow2_pos (k - 1) ltac:(lia)) as P'.
      pose proof (Z.mod_pos_bound M (2 ^ (k - 1)) P') as B.
      rewrite (Zmod_odd (M / 2 ^ (k - 1))).
      destruct (Z.odd (M / 2 ^ (k - 1))); simpl.
      * symmetry. apply negb_true_iff. apply Z.eqb_neq. lia.
      * rewrite Z.mul_0_r, Z.add_0_r. reflexivity.
Qed.

Lemma shifted_iter p : forall M k mrs,
  shifted M k mrs -> shifted M (k + Zpos p) (iter_pos shr_1 p mrs).
Proof.
  induction p as [p IH|p IH|]; intros M k mrs H; simpl.
  - replace (k + Zpos p~1) with (k + 1 + Zpos p + Zpos p) by lia.
    apply IH, IH, shifted_shr_1, H.
  - replace (k + Zpos p~0) with (k + Zpos p + Zpos p) by lia.
    apply IH, IH, H.
  - apply shifted_shr_1, H.
Qed.

Lemma shifted_round M k mrs :
  shifted M k mrs ->
  round_nearest_even (shr_m mrs) (loc_of_shr_record mrs) = rne M k.
Proof.
  destruct mrs as [m r s]. intros (HM & Hk & Hm & H0 & H1).
  simpl in Hm, H0, H1.
  destruct (Z.eq_dec k 0) as [->|Hk0].
  - destruct (H0 eq_refl) as [-> ->]. rewrite rne_0.
    cbn [round_nearest_even loc_of_shr_record shr_m].
    rewrite Hm, Z.pow_0_r, Z.div_1_r. reflexivity.
  - destruct (H1 ltac:(lia)) as [Hr Hs].
    pose proof (pow2_pos (k - 1) ltac:(lia)) as P'.
    pose proof (Z.mod_pos_bound M (2 ^ (k - 1)) P') as B.
    pose proof (mod_pow2_succ M (k - 1) ltac:(lia)) as E.
    pose proof (pow2_succ (k - 1) ltac:(lia)) as E2.
    replace (k - 1 + 1) with k in E, E2 by lia.
    rewrite (Zmod_odd (M / 2 ^ (k - 1))), <- Hr in E.
    unfold rne. rewrite <- Hm.
    destruct r; destruct s; cbn [round_nearest_even loc_of_shr_record shr_m];
      symmetry in Hs;
      [apply negb_true_iff, Z.eqb_neq in Hs
      |apply negb_false_iff, Z.eqb_eq in Hs
      |apply negb_true_iff, Z.eqb_neq in Hs
      |apply negb_false_iff, Z.eqb_eq in Hs];
      destruct (Z.compare_spec (2 * (M mod 2 ^ k)) (2 ^ k)); try lia; reflexivity.
Qed.

Lemma loc_bits_range l : 0 <= loc_bits l < 4.
Proof. destruct l as [|[| |]]; simpl; lia. Qed.

Lemma shifted_of_loc q l :
  0 <= q -> shifted (4 * q + loc_bits l) 2 (shr_record_of_loc q l).
Proof.
  intros Hq. pose proof (loc_bits_range l) as B.
  split; [lia|]. split; [lia|]. split; [|split]; [|intros; lia|intros _].
  - replace (shr_m (shr_record_of_loc q l)) with q by (destruct l as [|[| |]]; reflexivity).
    change (2 ^ 2) with 4. apply Z.div_unique_pos with (r := loc_bits l); lia.
  - change (2 - 1) with 1. rewrite Z.pow_1_r.
    destruct l as [|[| |]]; simpl loc_bits; simpl shr_record_of_loc; simpl shr_r; simpl shr_s.
    + rewrite Z.add_0_r. replace (4 * q) with (2 * q * 2) by lia.
      rewrite Z.div_mul, Z.mod_mul by lia. rewrite Z.odd_mul. split; reflexivity.
    + replace (4 * q + 2) with ((2 * q + 1) * 2) by lia.
      rewrite Z.div_mul, Z.mod_mul by lia.
      rewrite Z.odd_add, Z.odd_mul. split; reflexivity.
    + replace ((4 * q + 1) / 2) with (2 * q) by (apply Z.div_unique_pos with (r := 1); lia).
      replace ((4 * q + 1) mod 2) with 1 by (apply Z.mod_unique_pos with (q := 2 * q); lia).
      rewrite Z.odd_mul. split; reflexivity.
    + replace ((4 * q + 3) / 2) with (2 * q + 1) by (apply Z.div_unique_pos with (r := 1); lia).
      replace ((4 * q + 3) mod 2) with 1 by (apply Z.mod_unique_pos with (q := 2 * q + 1); lia).
      rewrite Z.odd_add, Z.odd_mul. split; reflexivity.
Qed.

(** ** What the rounding of [SpecFloat] computes *)

Section Round.
Variables prec emax : Z.
Hypothesis prec_pos : 0 < prec.

Lemma shr_fexp_none m e l :
  0 < m -> emin prec emax <= e -> Zdigits2 m <= prec ->
  shr_fexp prec emax m e l = (shr_record_of_loc m l, e).
Proof.
  intros Hm He Hd. unfold shr_fexp, shr, fexp.
  destruct (Z.max (Zdigits2 m + e - prec) (emin prec emax) - e) eqn:E;
    try reflexivity. lia.
Qed.

Lemma shr_fexp_some m e l :
  0 < m -> emin prec emax <= e -> prec < Zdigits2 m ->
  exists p, Zpos p = Zdigits2 m - prec /\
    shr_fexp prec emax m e l =
    (iter_pos shr_1 p (shr_record_of_loc m l), e + (Zdigits2 m - prec)).
Proof.
  intros Hm He Hd. unfold shr_fexp, shr, fexp.
  replace (Z.max (Zdigits2 m + e - prec) (emin prec emax) - e)
    with (Zdigits2 m - prec) by lia.
  destruct (Zdigits2 m - prec) as [|p|p] eqn:E; try lia.
  exists p. split; reflexivity.
Qed.

Lemma quot_loc_div m l n :
  0 <= m -> 0 <= n -> (4 * m + loc_bits l) / 2 ^ (n + 2) = m / 2 ^ n.
Proof.
  intros Hm Hn. pose proof (loc_bits_range l) as B.
  pose proof (pow2_pos n Hn) as P.
  rewrite Z.pow_add_r by lia. change (2 ^ 2) with 4.
  rewrite (Z.mul_comm (2 ^ n)), <- Z.div_div by lia.
  f_equal. symmetry. apply Z.div_unique_pos with (r := loc_bits l); lia.
Qed.

(** The rounding of a positive quotient [mx] with location [lx] at
    exponent [ex], above the subnormal range. *)
Theorem binary_round_aux_spec sx mx ex lx d :
  0 < mx -> 2 ^ (d - 1) <= mx < 2 ^ d -> emin prec emax <= ex ->
  let n := Z.max 0 (d - prec) in
  let m1 := rne (4 * mx + loc_bits lx) (n + 2) in
  binary_round_aux prec emax sx mx ex lx =
  if m1 <? 2 ^ prec then mk_float prec emax sx m1 (ex + n)
  else mk_float prec emax sx (2 ^ (prec - 1)) (ex + n + 1).
Proof.
  intros Hm Hd He n m1.
  pose proof (Zdigits2_unique mx d Hm Hd) as Ed.
  assert (Hd0 : 0 < d) by (rewrite <- Ed; now apply Zdigits2_pos).
  pose proof (pow2_pos n ltac:(lia)) as Pn.
  (* the first shift *)
  assert (S1 : exists mrs, shr_fexp prec emax mx ex lx = (mrs, ex + n) /\
                           shifted (4 * mx + loc_bits lx) (n + 2) mrs).
  { destruct (Z.le_gt_cases d prec) as [L|G].
    - exists (shr_record_of_loc mx lx). rewrite shr_fexp_none by lia.
      replace n with 0 by lia. rewrite Z.add_0_r. split; [reflexivity|].
      apply shifted_of_loc. lia.
    - destruct (shr_fexp_some mx ex lx) as (p & Hp & ->); try lia.
      rewrite Ed. replace (d - prec) with n by lia.
      eexists. split; [reflexivity|].
      replace (n + 2) with (2 + Zpos p) by lia.
      apply shifted_iter, shifted_of_loc. lia. }
  destruct S1 as (mrs & E1 & Sh).
  unfold binary_round_aux. rewrite E1.
  rewrite (shifted_round _ _ _ Sh). fold m1.
  (* the rounded mantissa *)
  assert (Hq : 1 <= mx / 2 ^ n < 2 ^ prec).
  { split.
    - apply Z.div_le_lower_bound; [lia|].
      assert (2 ^ n <= 2 ^ (d - 1)) by (apply pow2_le; lia). lia.
    - apply Z.div_lt_upper_bound; [lia|].
      rewrite <- Z.pow_add_r by lia.
      assert (2 ^ d <= 2 ^ (n + prec)) by (apply pow2_le; lia). lia. }
  assert (B1 : 1 <= m1 <= 2 ^ prec).
  { pose proof (rne_bounds (4 * mx + loc_bits lx) (n + 2) ltac:(lia)) as B.
    rewrite quot_loc_div in B by lia. fold m1 in B. lia. }
  destruct (Z.ltb_spec m1 (2 ^ prec)) as [L|G].
  - (* no carry *)
    assert (Zdigits2 m1 <= prec).
    { pose proof (Zdigits2_bounds m1 ltac:(lia)) as Bd.
      destruct (Z.le_gt_cases (Zdigits2 m1) prec) as [|G]; [assumption|].
      assert (2 ^ prec <= 2 ^ (Zdigits2 m1 - 1)) by (apply pow2_le; lia). lia. }
    rewrite shr_fexp_none by lia. reflexivity.
  - (* the mantissa reached 2^prec *)
    assert (Em : m1 = 2 ^ prec) by lia.
    assert (Zdigits2 m1 = prec + 1).
    { apply Zdigits2_unique; [lia|]. rewrite Em.
      replace (prec + 1 - 1) with prec by lia.
      split; [lia|]. apply pow2_lt. lia. }
    destruct (shr_fexp_some m1 (ex + n) loc_Exact) as (p & Hp & ->); try lia.
    assert (p = 1%positive) by lia. subst p.
    cbn [iter_pos shr_record_of_loc].
    rewrite shr_1_nonneg by lia. cbn [shr_m].
    replace (m1 / 2) with (2 ^ (prec - 1)).
    + replace (ex + n + (Zdigits2 m1 - prec)) with (ex + n + 1) by lia.
      reflexivity.
    + rewrite Em. replace prec with (prec - 1 + 1) at 2 by lia.
      rewrite pow2_succ by lia. rewrite Z.mul_comm, Z.div_mul by lia.
      reflexivity.
Qed.
End Round.

(** ** Signs: no operation of the routine produces a NaN or a negative
       mean or variance *)

Lemma has_sign_not_nan s x : has_sign s x -> is_nan x = false.
Proof. destruct x; simpl; intros; try reflexivity. contradiction. Qed.

Section Signs.
Variables prec emax : Z.

Lemma shr_fexp_shifted m e l :
  0 <= m ->
  exists k, shifted (4 * m + loc_bits l) k (fst (shr_fexp prec emax m e l)).
Proof.
  intros Hm. unfold shr_fexp, shr.
  destruct (fexp prec emax (Zdigits2 m + e) - e) as [|p|p]; simpl fst.
  - exists 2. now apply shifted_of_loc.
  - exists (2 + Zpos p). now apply shifted_iter, shifted_of_loc.
  - exists 2. now apply shifted_of_loc.
Qed.

Lemma shifted_nonneg M k mrs : shifted M k mrs -> 0 <= shr_m mrs.
Proof.
  intros (HM & Hk & -> & _). apply Z.div_pos; [lia | now apply pow2_pos].
Qed.

Lemma binary_round_aux_sign sx mx ex lx :
  0 <= mx -> has_sign sx (binary_round_aux prec emax sx mx ex lx).
Proof.
  intros Hm. unfold binary_round_aux.
  destruct (shr_fexp_shifted mx ex lx Hm) as (k & Sh).
  destruct (shr_fexp prec emax mx ex lx) as [mrs e'] eqn:E1. simpl fst in Sh.
  rewrite (shifted_round _ _ _ Sh).
  assert (H1 : 0 <= rne (4 * mx + loc_bits lx) k).
  { destruct Sh as (HM & Hk & _).
    pose proof (rne_bounds (4 * mx + loc_bits lx) k Hk).
    pose proof (Z.div_pos (4 * mx + loc_bits lx) (2 ^ k) HM (pow2_pos k Hk)). lia. }
  destruct (shr_fexp_shifted _ e' loc_Exact H1) as (k' & Sh').
  destruct (shr_fexp prec emax _ e' loc_Exact) as [mrs' e''] eqn:E2. simpl fst in Sh'.
  pose proof (shifted_nonneg _ _ _ Sh') as N.
  destruct (shr_m mrs') as [|p|p]; [reflexivity| |lia].
  destruct (e'' <=? emax - prec); reflexivity.
Qed.

Lemma binary_round_sign sx mx ex :
  has_sign sx (binary_round prec emax sx mx ex).
Proof.
  unfold binary_round.
  destruct (shl_align mx ex _) as [mz ez].
  apply binary_round_aux_sign. lia.
Qed.

Lemma binary_normalize_not_nan m e sz :
  is_nan (binary_normalize prec emax m e sz) = false.
Proof.
  destruct m as [|p|p]; simpl; [reflexivity| |];
    eapply has_sign_not_nan, binary_round_sign.
Qed.

Lemma binary_normalize_nonneg m e :
  0 <= m -> has_sign false (binary_normalize prec emax m e false).
Proof.
  intros Hm. destruct m as [|p|p]; simpl; [reflexivity| |lia].
  apply binary_round_sign.
Qed.

Lemma SFadd_nonneg x y :
  has_sign false x -> has_sign false y -> has_sign false (SFadd prec emax x y).
Proof.
  destruct x as [sx|sx| |sx mx ex], y as [sy|sy| |sy my ey]; simpl;
    try contradiction; intros -> ->; try reflexivity.
  unfold cond_Zopp. apply binary_normalize_nonneg.
  apply Z.add_nonneg_nonneg; apply Pos2Z.is_nonneg.
Qed.

Lemma SFsub_not_nan x y :
  is_finite x = true -> is_nan y = false -> is_nan (SFsub prec emax x y) = false.
Proof.
  destruct x as [sx|sx| |sx mx ex], y as [sy|sy| |sy my ey]; simpl;
    try discriminate; intros _ _; try reflexivity.
  - destruct sx, sy; reflexivity.
  - apply binary_normalize_not_nan.
Qed.

Lemma SFmul_square_nonneg d :
  is_nan d = false -> has_sign false (SFmul prec emax d d).
Proof.
  destruct d as [sd|sd| |sd md ed]; simpl; try discriminate; intros _;
    try apply xorb_nilpotent.
  rewrite xorb_nilpotent. apply binary_round_aux_sign. lia.
Qed.

Lemma SFdiv_nonneg x y :
  has_sign false x -> is_pos_finite y = true -> has_sign false (SFdiv prec emax x y).
Proof.
  destruct x as [sx|sx| |sx mx ex], y as [sy|sy| |[|] my ey]; simpl;
    try contradiction; try discriminate; intros -> _; try reflexivity.
  unfold SFdiv_core_binary.
  set (m' := match _ with Z0 => _ | Zpos _ => _ | Zneg _ => _ end).
  assert (Hm' : 0 <= m').
  { subst m'. destruct (_ - _) as [|q|q]; try lia.
    apply Z.shiftl_nonneg. lia. }
  pose proof (Z.div_pos m' (Zpos my) Hm' ltac:(lia)) as Hq.
  unfold Z.div in Hq. destruct (Z.div_eucl m' (Zpos my)) as [q r].
  apply binary_round_aux_sign. exact Hq.
Qed.

Lemma SFsqrt_nonneg x :
  has_sign false x -> has_sign false (SFsqrt prec emax x).
Proof.
  destruct x as [sx|sx| |sx mx ex]; simpl; try contradiction; intros ->;
    try reflexivity.
  unfold SFsqrt_core_binary.
  set (m' := match _ with Z0 => _ | Zpos _ => _ | Zneg _ => _ end).
  pose proof (Z.sqrt_nonneg m') as Hq.
  rewrite <- Z.sqrtrem_sqrt in Hq.
  destruct (Z.sqrtrem m') as [q r]. simpl fst in Hq.
  apply binary_round_aux_sign. exact Hq.
Qed.
End Signs.

Lemma of_double_nonneg x : has_sign false x -> has_sign false (F32.of_double x).
Proof.
  destruct x as [sx|sx| |sx mx ex]; simpl; try contradiction; intros ->;
    try reflexivity.
  apply binary_round_sign.
Qed.

(** A number with a clear sign bit compares greater than or equal to zero. *)
Lemma has_sign_false_ge_0 x : has_sign false x -> SFleb (S754_zero false) x = true.
Proof.
  destruct x as [sx|sx| |sx mx ex]; simpl; try contradiction; intros ->; reflexivity.
Qed.

(** ** Normalisation, addition and division of positive numbers *)

Lemma pos_iter_xO m d : Zpos (Pos.iter xO m d) = Zpos m * 2 ^ Zpos d.
Proof.
  induction d as [|d IH] using Pos.peano_ind.
  - simpl. lia.
  - rewrite Pos.iter_succ, Pos2Z.inj_xO, IH, Pos2Z.inj_succ.
    unfold Z.succ. rewrite pow2_succ by lia. lia.
Qed.

Lemma shl_align_spec mx ex ex' :
  Zpos (fst (shl_align mx ex ex')) = Zpos mx * 2 ^ (ex - Z.min ex ex') /\
  snd (shl_align mx ex ex') = Z.min ex ex'.
Proof.
  unfold shl_align. destruct (ex' - ex) as [|d|d] eqn:E; simpl fst; simpl snd.
  - replace (Z.min ex ex') with ex by lia. rewrite Z.sub_diag. simpl. lia.
  - replace (Z.min ex ex') with ex by lia. rewrite Z.sub_diag. simpl. lia.
  - replace (Z.min ex ex') with ex' by lia. rewrite pos_iter_xO.
    split; [|reflexivity]. do 2 f_equal. lia.
Qed.

Section Normal.
Variables prec emax : Z.
Hypothesis prec_pos : 0 < prec.

(** A mantissa with trailing zeros that fits the precision is rounded to
    the float of the same value. *)
Lemma binary_round_exact sx (M : positive) m0 j e :
  0 < m0 -> 0 <= j -> Zpos M = m0 * 2 ^ j -> Zdigits2 m0 <= prec ->
  emin prec emax <= e - j -> emin prec emax <= e + Zdigits2 m0 - prec ->
  binary_round prec emax sx M (e - j) = norm prec emax sx m0 e.
Proof.
  intros Hm0 Hj EM Hd0 He1 He2.
  pose proof (Zdigits2_bounds m0 Hm0) as B0.
  pose proof (Zdigits2_pos m0 Hm0) as P0.
  set (d0 := Zdigits2 m0) in *.
  pose proof (pow2_pos j Hj) as Pj.
  assert (DM : Zpos (digits2_pos M) = d0 + j).
  { apply digits2_pos_unique. rewrite EM.
    replace (d0 + j - 1) with (d0 - 1 + j) by lia.
    rewrite !Z.pow_add_r by lia. nia. }
  unfold binary_round. rewrite DM.
  replace (fexp prec emax (d0 + j + (e - j))) with (e + d0 - prec)
    by (unfold fexp; lia).
  pose proof (shl_align_spec M (e - j) (e + d0 - prec)) as [Am Ae].
  destruct (shl_align M (e - j) (e + d0 - prec)) as [mz ez].
  simpl fst in Am. simpl snd in Ae.
  assert (Hlt : m0 * 2 ^ (prec - d0) < 2 ^ prec).
  { rewrite (pow2_split d0 prec) by lia.
    pose proof (pow2_pos (prec - d0) ltac:(lia)). nia. }
  destruct (Z.le_gt_cases (e - j) (e + d0 - prec)) as [L|G].
  - (* enough bits already: shift right, exactly *)
    replace (Z.min (e - j) (e + d0 - prec)) with (e - j) in Am, Ae by lia.
    rewrite Z.sub_diag, Z.pow_0_r, Z.mul_1_r in Am.
    rewrite (binary_round_aux_spec prec emax prec_pos sx (Zpos mz) ez loc_Exact (d0 + j));
      try lia.
    + cbn [loc_bits]. rewrite Z.add_0_r.
      replace (4 * Zpos mz) with (Zpos mz * 2 ^ 2) by (change (2 ^ 2) with 4; lia).
      replace (Z.max 0 (d0 + j - prec)) with (d0 + j - prec) by lia.
      rewrite rne_scale by lia.
      replace (rne (Zpos mz) (d0 + j - prec)) with (m0 * 2 ^ (prec - d0)).
      * destruct (Z.ltb_spec (m0 * 2 ^ (prec - d0)) (2 ^ prec)); [|lia].
        unfold norm. fold d0. f_equal. lia.
      * rewrite Am, EM.
        rewrite (pow2_split (d0 + j - prec) j) by lia.
        replace (j - (d0 + j - prec)) with (prec - d0) by lia.
        rewrite (Z.mul_comm (2 ^ (d0 + j - prec))), Z.mul_assoc.
        rewrite rne_exact by lia. reflexivity.
    + rewrite Am, EM.
      replace (d0 + j - 1) with (d0 - 1 + j) by lia.
      rewrite !Z.pow_add_r by lia. nia.
  - (* too few bits: shift left first *)
    replace (Z.min (e - j) (e + d0 - prec)) with (e + d0 - prec) in Am, Ae by lia.
    replace (e - j - (e + d0 - prec)) with (prec - d0 - j) in Am by lia.
    assert (Ez : Zpos mz = m0 * 2 ^ (prec - d0)).
    { rewrite Am, EM, <- Z.mul_assoc, <- Z.pow_add_r by lia.
      do 2 f_equal. lia. }
    rewrite (binary_round_aux_spec prec emax prec_pos sx (Zpos mz) ez loc_Exact prec);
      try lia.
    + cbn [loc_bits]. rewrite Z.add_0_r.
      replace (Z.max 0 (prec - prec)) with 0 by lia.
      replace (4 * Zpos mz) with (Zpos mz * 2 ^ 2) by (change (2 ^ 2) with 4; lia).
      change (0 + 2) with 2. rewrite rne_exact by lia.
      destruct (Z.ltb_spec (Zpos mz) (2 ^ prec)); [|lia].
      unfold norm. fold d0. rewrite Ez. f_equal. lia.
    + rewrite Ez. split; [|lia].
      rewrite (pow2_split (d0 - 1) (prec - 1)) by lia.
      replace (prec - 1 - (d0 - 1)) with (prec - d0) by lia.
      pose proof (pow2_pos (prec - d0) ltac:(lia)). nia.
Qed.

(** A mantissa of more than [prec] bits is rounded to nearest even. *)
Lemma binary_round_inexact sx (M : positive) e d :
  Zpos (digits2_pos M) = d -> prec < d -> emin prec emax <= e ->
  binary_round prec emax sx M e =
  let m1 := rne (Zpos M) (d - prec) in
  if m1 <? 2 ^ prec then mk_float prec emax sx m1 (e + (d - prec))
  else mk_float prec emax sx (2 ^ (prec - 1)) (e + (d - prec) + 1).
Proof.
  intros DM Hd He. unfold binary_round. rewrite DM.
  replace (fexp prec emax (d + e)) with (d + e - prec) by (unfold fexp; lia).
  pose proof (shl_align_spec M e (d + e - prec)) as [Am Ae].
  destruct (shl_align M e (d + e - prec)) as [mz ez].
  simpl fst in Am. simpl snd in Ae.
  replace (Z.min e (d + e - prec)) with e in Am, Ae by lia.
  rewrite Z.sub_diag, Z.pow_0_r, Z.mul_1_r in Am.
  pose proof (digits2_pos_bounds M) as BM. rewrite DM in BM.
  rewrite (binary_round_aux_spec prec emax prec_pos sx (Zpos mz) ez loc_Exact d);
    try lia.
  cbn [loc_bits]. rewrite Z.add_0_r.
  replace (4 * Zpos mz) with (Zpos mz * 2 ^ 2) by (change (2 ^ 2) with 4; lia).
  replace (Z.max 0 (d - prec)) with (d - prec) by lia.
  rewrite rne_scale by lia. rewrite Am, Ae. reflexivity.
Qed.

(** The sum of two positive floats is the rounding of the exact sum of
    the aligned mantissas. *)
Lemma SFadd_pos m1 e1 m2 e2 :
  SFadd prec emax (S754_finite false m1 e1) (S754_finite false m2 e2) =
  binary_normalize prec emax
    (Zpos m1 * 2 ^ (e1 - Z.min e1 e2) + Zpos m2 * 2 ^ (e2 - Z.min e1 e2))
    (Z.min e1 e2) false.
Proof.
  cbn [SFadd cond_Zopp].
  pose proof (shl_align_spec m1 e1 (Z.min e1 e2)) as [A1 _].
  pose proof (shl_align_spec m2 e2 (Z.min e1 e2)) as [A2 _].
  rewrite A1, A2.
  replace (Z.min e1 (Z.min e1 e2)) with (Z.min e1 e2) by lia.
  replace (Z.min e2 (Z.min e1 e2)) with (Z.min e1 e2) by lia.
  reflexivity.
Qed.
End Normal.

Lemma mk_float_finite prec emax s m e :
  0 < m -> e <= emax - prec ->
  mk_float prec emax s m e = S754_finite s (Z.to_pos m) e.
Proof.
  intros Hm He. destruct m as [|p|p]; try lia. simpl.
  destruct (Z.leb_spec e (emax - prec)); [reflexivity | lia].
Qed.

(** ** Integers in double precision *)

Lemma Zdigits2_le53 n : 0 < n < 2 ^ 53 -> 0 < Zdigits2 n <= 53.
Proof.
  intros H. pose proof (Zdigits2_bounds n ltac:(lia)) as B.
  split; [apply Zdigits2_pos; lia|].
  destruct (Z.le_gt_cases (Zdigits2 n) 53) as [|G]; [assumption|].
  assert (2 ^ 53 <= 2 ^ (Zdigits2 n - 1)) by (apply pow2_le; lia). lia.
Qed.

Lemma norm_double n e :
  0 < n < 2 ^ 53 -> e <= 971 ->
  norm 53 1024 false n e =
  S754_finite false (Z.to_pos (n * 2 ^ (53 - Zdigits2 n))) (e + Zdigits2 n - 53).
Proof.
  intros Hn He. pose proof (Zdigits2_le53 n Hn) as D. unfold norm.
  apply mk_float_finite; [|lia].
  pose proof (pow2_pos (53 - Zdigits2 n) ltac:(lia)). nia.
Qed.

Lemma of_int_nat53 n : 0 < n < 2 ^ 53 -> F64.of_int n = double_of_nat53 n.
Proof.
  intros Hn. pose proof (Zdigits2_le53 n Hn) as D.
  unfold F64.of_int, double_of_nat53. destruct n as [|p|p]; try lia.
  cbn [binary_normalize].
  pose proof (binary_round_exact 53 1024 ltac:(lia) false p (Zpos p) 0 0) as E.
  change (0 - 0) with 0 in E. rewrite Z.pow_0_r, Z.mul_1_r in E.
  unfold F64.prec, F64.emax. rewrite E; try lia.
  - rewrite norm_double by lia. reflexivity.
  - unfold emin. lia.
  - unfold emin. lia.
Qed.

Lemma of_int_0 : F64.of_int 0 = S754_zero false.
Proof. reflexivity. Qed.

(** Additions of integers are exact below [2^53]. *)
Lemma F64_add_nat53 x y :
  0 < x -> 0 < y -> x + y < 2 ^ 53 ->
  F64.add (double_of_nat53 x) (double_of_nat53 y) = double_of_nat53 (x + y).
Proof.
  intros Hx Hy Hxy.
  pose proof (Zdigits2_le53 x ltac:(lia)) as Dx.
  pose proof (Zdigits2_le53 y ltac:(lia)) as Dy.
  pose proof (Zdigits2_le53 (x + y) ltac:(lia)) as Dxy.
  unfold F64.add, double_of_nat53 at 1 2. rewrite SFadd_pos.
  set (ez := Z.min (Zdigits2 x - 53) (Zdigits2 y - 53)).
  assert (Px : 0 < 2 ^ (53 - Zdigits2 x)) by (apply pow2_pos; lia).
  assert (Py : 0 < 2 ^ (53 - Zdigits2 y)) by (apply pow2_pos; lia).
  rewrite !Z2Pos.id by nia.
  assert (Es : x * 2 ^ (53 - Zdigits2 x) * 2 ^ (Zdigits2 x - 53 - ez) +
               y * 2 ^ (53 - Zdigits2 y) * 2 ^ (Zdigits2 y - 53 - ez) =
               (x + y) * 2 ^ (- ez)).
  { rewrite <- !Z.mul_assoc, <- !Z.pow_add_r by lia.
    replace (53 - Zdigits2 x + (Zdigits2 x - 53 - ez)) with (- ez) by lia.
    replace (53 - Zdigits2 y + (Zdigits2 y - 53 - ez)) with (- ez) by lia.
    ring. }
  rewrite Es.
  pose proof (pow2_pos (- ez) ltac:(lia)) as Pz.
  destruct ((x + y) * 2 ^ (- ez)) as [|M|M] eqn:EM; try nia.
  cbn [binary_normalize].
  replace ez with (0 - (- ez)) at 1 by lia.
  unfold F64.prec, F64.emax.
  rewrite (binary_round_exact 53 1024 ltac:(lia) false M (x + y) (- ez) 0);
    try lia; try (unfold emin; lia).
  rewrite norm_double by lia. reflexivity.
Qed.

Lemma F64_add_of_int x y :
  0 <= x -> 0 <= y -> x + y < 2 ^ 53 ->
  F64.add (F64.of_int x) (F64.of_int y) = F64.of_int (x + y).
Proof.
  intros Hx Hy Hxy.
  destruct (Z.eq_dec x 0) as [->|Nx]; destruct (Z.eq_dec y 0) as [->|Ny].
  - reflexivity.
  - rewrite Z.add_0_l, of_int_0, of_int_nat53 by lia. reflexivity.
  - rewrite Z.add_0_r, of_int_0, of_int_nat53 by lia. reflexivity.
  - rewrite !of_int_nat53 by lia. apply F64_add_nat53; lia.
Qed.

Lemma of_int_pos_finite n : 0 < n < 2 ^ 63 -> is_pos_finite (F64.of_int n) = true.
Proof.
  intros Hn. pose proof (Zdigits2_bounds n ltac:(lia)) as B.
  pose proof (Zdigits2_pos n ltac:(lia)) as P.
  destruct (Z.le_gt_cases (Zdigits2 n) 53) as [L|G].
  - assert (2 ^ Zdigits2 n <= 2 ^ 53) by (apply pow2_le; lia).
    rewrite of_int_nat53 by lia. reflexivity.
  - assert (Zdigits2 n <= 63).
    { destruct (Z.le_gt_cases (Zdigits2 n) 63) as [|G']; [assumption|].
      assert (2 ^ 63 <= 2 ^ (Zdigits2 n - 1)) by (apply pow2_le; lia). lia. }
    unfold F64.of_int. destruct n as [|p|p]; try lia.
    cbn [binary_normalize]. unfold F64.prec, F64.emax.
    rewrite (binary_round_inexact 53 1024 ltac:(lia) false p 0 (Zdigits2 (Zpos p)));
      [|reflexivity|lia|unfold emin; lia].
    cbv zeta.
    set (k := Zdigits2 (Zpos p) - 53) in *.
    assert (1 <= rne (Zpos p) k).
    { apply rne_ge; [lia|].
      assert (2 ^ k <= 2 ^ (Zdigits2 (Zpos p) - 1)) by (apply pow2_le; lia). lia. }
    destruct (rne (Zpos p) k <? 2 ^ 53).
    + rewrite mk_float_finite by lia. reflexivity.
    + rewrite mk_float_finite by lia. reflexivity.
Qed.

Lemma u8_range v : 0 <= u8 v <= 255.
Proof. unfold u8. pose proof (Byte.to_N_bounded v). lia. Qed.

Lemma double_of_u8_cases v :
  double_of_u8 v = S754_zero false \/ double_of_u8 v = double_of_nat53 (u8 v) /\ 0 < u8 v.
Proof.
  pose proof (u8_range v) as R. unfold double_of_u8.
  destruct (Z.eq_dec (u8 v) 0) as [->|N]; [left; reflexivity|].
  right. split; [|lia]. apply of_int_nat53. lia.
Qed.

Lemma double_of_u8_nonneg v : has_sign false (double_of_u8 v).
Proof. destruct (double_of_u8_cases v) as [->|[-> _]]; reflexivity. Qed.

Lemma double_of_u8_finite v : is_finite (double_of_u8 v) = true.
Proof. destruct (double_of_u8_cases v) as [->|[-> _]]; reflexivity. Qed.

Lemma fold_left_invariant {A B} (P : A -> Prop) (f : A -> B -> A) l :
  (forall s x, P s -> P (f s x)) -> forall s, P s -> P (fold_left f l s).
Proof.
  intros Hf. induction l as [|x l IH]; intros s Hs; simpl; [assumption|].
  apply IH, Hf, Hs.
Qed.

Lemma double_sum_nonneg l : has_sign false (double_sum l).
Proof.
  unfold double_sum. apply fold_left_invariant; [|reflexivity].
  intros s x Hs. apply SFadd_nonneg; [assumption | apply double_of_u8_nonneg].
Qed.

Lemma spec_mean_double_nonneg l N :
  0 < N < 2 ^ 63 -> has_sign false (spec_mean_double l N).
Proof.
  intros HN. unfold spec_mean_double.
  apply SFdiv_nonneg; [apply double_sum_nonneg | now apply of_int_pos_finite].
Qed.

Lemma sq_dev_sum_nonneg mean l :
  is_nan mean = false -> has_sign false (sq_dev_sum mean l).
Proof.
  intros Hm. unfold sq_dev_sum. apply fold_left_invariant; [|reflexivity].
  intros s x Hs. cbv zeta. apply SFadd_nonneg; [assumption|].
  apply SFmul_square_nonneg, SFsub_not_nan; [apply double_of_u8_finite | assumption].
Qed.

Lemma spec_mean_nonneg l N : 0 < N < 2 ^ 63 -> has_sign false (spec_mean l N).
Proof. intros HN. apply of_double_nonneg, spec_mean_double_nonneg, HN. Qed.

Lemma spec_stddev_nonneg l N : 0 < N < 2 ^ 63 -> has_sign false (spec_stddev l N).
Proof.
  intros HN. unfold spec_stddev.
  apply of_double_nonneg, SFsqrt_nonneg, SFdiv_nonneg;
    [|now apply of_int_pos_finite].
  apply sq_dev_sum_nonneg.
  eapply has_sign_not_nan, spec_mean_double_nonneg, HN.
Qed.

Lemma valid_count buf w h rs : valid_input buf w h rs -> 0 < w * h < 2 ^ 63.
Proof. unfold valid_input, is_int32. intros (Iw & Ih & _ & Hw & Hh & _). nia. Qed.

(** ** Division *)

Lemma new_location_0 m : new_location m 0 = loc_Exact.
Proof.
  unfold new_location, new_location_even, new_location_odd.
  destruct (Z.even m); reflexivity.
Qed.

Lemma SFdiv_pos prec emax m1 e1 m2 e2 :
  0 < prec ->
  Zpos (digits2_pos m1) = prec -> Zpos (digits2_pos m2) = prec ->
  emin prec emax <= e1 - e2 - prec ->
  SFdiv prec emax (S754_finite false m1 e1) (S754_finite false m2 e2) =
  binary_round_aux prec emax false
    (Zpos m1 * 2 ^ prec / Zpos m2) (e1 - e2 - prec)
    (new_location (Zpos m2) ((Zpos m1 * 2 ^ prec) mod Zpos m2)).
Proof.
  intros Hp D1 D2 He. cbn [SFdiv xorb]. unfold SFdiv_core_binary.
  cbn [Zdigits2]. rewrite D1, D2.
  replace (Z.min (fexp prec emax (prec + e1 - (prec + e2))) (e1 - e2))
    with (e1 - e2 - prec) by (unfold fexp; lia).
  replace (e1 - e2 - (e1 - e2 - prec)) with prec by lia.
  rewrite <- Z.shiftl_mul_pow2 by lia.
  destruct prec as [|pp|pp] eqn:Ep; try lia.
  unfold Z.div, Z.modulo.
  destruct (Z.div_eucl (Z.shiftl (Zpos m1) (Zpos pp)) (Zpos m2)) as [q r].
  reflexivity.
Qed.

Lemma double_of_nat53_digits n :
  0 < n < 2 ^ 53 ->
  2 ^ 52 <= n * 2 ^ (53 - Zdigits2 n) < 2 ^ 53.
Proof.
  intros Hn. pose proof (Zdigits2_le53 n Hn) as D.
  pose proof (Zdigits2_bounds n ltac:(lia)) as B.
  pose proof (pow2_pos (53 - Zdigits2 n) ltac:(lia)) as P.
  rewrite (pow2_split (Zdigits2 n - 1) 52) by lia.
  rewrite (pow2_split (Zdigits2 n) 53) by lia.
  replace (52 - (Zdigits2 n - 1)) with (53 - Zdigits2 n) by lia.
  nia.
Qed.

(** The quotient of two integers below [2^53], before rounding. *)
Lemma F64_div_nat53 x y :
  0 < x < 2 ^ 53 -> 0 < y < 2 ^ 53 ->
  let mx := x * 2 ^ (53 - Zdigits2 x) in
  let my := y * 2 ^ (53 - Zdigits2 y) in
  F64.div (double_of_nat53 x) (double_of_nat53 y) =
  binary_round_aux 53 1024 false
    (mx * 2 ^ 53 / my) (Zdigits2 x - Zdigits2 y - 53)
    (new_location my ((mx * 2 ^ 53) mod my)).
Proof.
  intros Hx Hy mx my.
  pose proof (double_of_nat53_digits x Hx) as Bx.
  pose proof (double_of_nat53_digits y Hy) as By.
  pose proof (Zdigits2_le53 x Hx) as Dx.
  pose proof (Zdigits2_le53 y Hy) as Dy.
  fold mx in Bx. fold my in By.
  unfold F64.div, double_of_nat53. fold mx my.
  rewrite SFdiv_pos; unfold F64.prec, F64.emax; try lia.
  - rewrite !Z2Pos.id by lia. f_equal. lia.
  - apply digits2_pos_unique. rewrite Z2Pos.id by lia. exact Bx.
  - apply digits2_pos_unique. rewrite Z2Pos.id by lia. exact By.
  - unfold emin. lia.
Qed.

Lemma pow2_lt_inv a b : 0 <= b -> 2 ^ a < 2 ^ b -> a < b.
Proof.
  intros Hb H. destruct (Z.lt_ge_cases a b) as [|G]; [assumption|].
  assert (2 ^ b <= 2 ^ a) by (apply pow2_le; lia). lia.
Qed.

Lemma Zdigits2_mul x y :
  0 < x -> 0 < y ->
  Zdigits2 x + Zdigits2 y - 1 <= Zdigits2 (x * y) <= Zdigits2 x + Zdigits2 y.
Proof.
  intros Hx Hy.
  pose proof (Zdigits2_bounds x Hx) as Bx. pose proof (Zdigits2_pos x Hx) as Px.
  pose proof (Zdigits2_bounds y Hy) as By. pose proof (Zdigits2_pos y Hy) as Py.
  pose proof (Zdigits2_bounds (x * y) ltac:(nia)) as Bxy.
  pose proof (Zdigits2_pos (x * y) ltac:(nia)) as Pxy.
  pose proof (pow2_pos (Zdigits2 x - 1) ltac:(lia)).
  pose proof (pow2_pos (Zdigits2 y - 1) ltac:(lia)).
  assert (L : 2 ^ (Zdigits2 x - 1 + (Zdigits2 y - 1)) < 2 ^ Zdigits2 (x * y)).
  { rewrite Z.pow_add_r by lia. nia. }
  assert (U : 2 ^ (Zdigits2 (x * y) - 1) < 2 ^ (Zdigits2 x + Zdigits2 y)).
  { rewrite (Z.pow_add_r 2 (Zdigits2 x)) by lia. nia. }
  apply pow2_lt_inv in L; [|lia]. apply pow2_lt_inv in U; [|lia]. lia.
Qed.

(** Dividing [c * N] by [N] gives [c] exactly. *)
Lemma F64_div_nat53_exact c N :
  0 < c -> 0 < N -> c * N < 2 ^ 53 ->
  F64.div (double_of_nat53 (c * N)) (double_of_nat53 N) = double_of_nat53 c.
Proof.
  intros Hc HN HcN.
  assert (Hc53 : 0 < c < 2 ^ 53) by nia.
  assert (HN53 : 0 < N < 2 ^ 53) by nia.
  assert (HS53 : 0 < c * N < 2 ^ 53) by nia.
  rewrite F64_div_nat53 by assumption. cbv zeta.
  pose proof (Zdigits2_le53 _ Hc53) as Dc.
  pose proof (Zdigits2_le53 _ HN53) as DN.
  pose proof (Zdigits2_le53 _ HS53) as DS.
  pose proof (Zdigits2_mul c N Hc HN) as DM.
  pose proof (Zdigits2_bounds c Hc) as Bc.
  pose proof (double_of_nat53_digits N HN53) as BN.
  set (dc := Zdigits2 c) in *. set (dN := Zdigits2 N) in *.
  set (dS := Zdigits2 (c * N)) in *.
  set (my := N * 2 ^ (53 - dN)) in *.
  set (t := 53 + dN - dS).
  assert (EA : c * N * 2 ^ (53 - dS) * 2 ^ 53 = c * 2 ^ t * my).
  { unfold my, t.
    replace (c * 2 ^ (53 + dN - dS) * (N * 2 ^ (53 - dN)))
      with (c * N * (2 ^ (53 + dN - dS) * 2 ^ (53 - dN))) by ring.
    rewrite <- Z.mul_assoc, <- !Z.pow_add_r by lia.
    do 2 f_equal. lia. }
  rewrite EA, Z.div_mul, Z.mod_mul by lia. rewrite new_location_0.
  pose proof (pow2_pos t ltac:(unfold t; lia)) as Pt.
  rewrite (binary_round_aux_spec 53 1024 ltac:(lia) false (c * 2 ^ t)
             (dS - dN - 53) loc_Exact (dc + t));
    [|nia| |unfold emin; lia].
  - cbn [loc_bits]. rewrite Z.add_0_r.
    replace (4 * (c * 2 ^ t)) with (c * 2 ^ t * 2 ^ 2) by (change (2 ^ 2) with 4; lia).
    replace (Z.max 0 (dc + t - 53)) with (dc + t - 53) by (unfold t; lia).
    rewrite rne_scale by (unfold t; lia).
    rewrite (pow2_split (dc + t - 53) t) by (unfold t; lia).
    rewrite (Z.mul_comm (2 ^ (dc + t - 53))), Z.mul_assoc.
    rewrite rne_exact by (unfold t; lia).
    replace (t - (dc + t - 53)) with (53 - dc) by lia.
    pose proof (double_of_nat53_digits c Hc53) as Bm. fold dc in Bm.
    destruct (Z.ltb_spec (c * 2 ^ (53 - dc)) (2 ^ 53)); [|lia].
    rewrite mk_float_finite by lia.
    unfold double_of_nat53. fold dc. f_equal. unfold t. lia.
  - replace (dc + t - 1) with (dc - 1 + t) by lia.
    rewrite !Z.pow_add_r by (unfold t; lia). nia.
Qed.

Lemma F64_div_zero y :
  is_pos_finite y = true -> F64.div (S754_zero false) y = S754_zero false.
Proof. destruct y as [| | |[|] m e]; try discriminate. reflexivity. Qed.

Lemma F64_div_of_int_exact c N :
  0 <= c -> 0 < N < 2 ^ 63 -> c * N < 2 ^ 53 ->
  F64.div (F64.of_int (c * N)) (F64.of_int N) = F64.of_int c.
Proof.
  intros Hc HN HcN. destruct (Z.eq_dec c 0) as [->|Nc].
  - rewrite Z.mul_0_l, of_int_0. apply F64_div_zero, of_int_pos_finite, HN.
  - rewrite !of_int_nat53 by nia. apply F64_div_nat53_exact; lia.
Qed.

(** ** Upper bounds survive rounding *)

Lemma F64_div_nat53_le S N K :
  0 < S < 2 ^ 53 -> 0 < N < 2 ^ 53 -> S <= K * N ->
  normal_le 53 (-105) K (F64.div (double_of_nat53 S) (double_of_nat53 N)).
Proof.
  intros HS HN HK.
  rewrite F64_div_nat53 by assumption. cbv zeta.
  pose proof (Zdigits2_le53 _ HS) as DS.
  pose proof (Zdigits2_le53 _ HN) as DN.
  pose proof (double_of_nat53_digits S HS) as BS.
  pose proof (double_of_nat53_digits N HN) as BN.
  set (dS := Zdigits2 S) in *. set (dN := Zdigits2 N) in *.
  set (mx := S * 2 ^ (53 - dS)) in *.
  set (my := N * 2 ^ (53 - dN)) in *.
  set (e' := dS - dN - 53).
  set (q := mx * 2 ^ 53 / my).
  set (r := (mx * 2 ^ 53) mod my).
  pose proof (Z.div_mod (mx * 2 ^ 53) my ltac:(lia)) as EA. fold q r in EA.
  pose proof (Z.mod_pos_bound (mx * 2 ^ 53) my ltac:(lia)) as Br. fold r in Br.
  (* the size of the quotient *)
  assert (Hq : 2 ^ 52 <= q < 2 ^ 54).
  { split.
    - apply Z.div_le_lower_bound; lia.
    - apply Z.div_lt_upper_bound; lia. }
  assert (Hn : exists n, 0 <= n <= 1 /\ 2 ^ (52 + n) <= q < 2 ^ (53 + n)).
  { destruct (Z.lt_ge_cases q (2 ^ 53)); [exists 0 | exists 1]; simpl; lia. }
  destruct Hn as (n & Hn & Bq).
  (* the bound, on the grid of the quotient *)
  set (K0 := K * 2 ^ (- e')).
  assert (HA : mx * 2 ^ 53 <= my * K0).
  { unfold mx, my, K0, e'.
    replace (S * 2 ^ (53 - dS) * 2 ^ 53) with (S * 2 ^ (106 - dS)).
    2:{ rewrite <- Z.mul_assoc, <- Z.pow_add_r by lia. do 2 f_equal. lia. }
    replace (N * 2 ^ (53 - dN) * (K * 2 ^ (- (dS - dN - 53))))
      with (K * N * 2 ^ (106 - dS)).
    2:{ replace (N * 2 ^ (53 - dN) * (K * 2 ^ (- (dS - dN - 53))))
          with (K * N * (2 ^ (53 - dN) * 2 ^ (- (dS - dN - 53)))) by ring.
        rewrite <- Z.pow_add_r by lia. do 2 f_equal. lia. }
    pose proof (pow2_pos (106 - dS) ltac:(lia)). nia. }
  assert (Hq0 : q <= K0) by (apply Z.div_le_upper_bound; lia).
  set (l := new_location my r).
  assert (HM : 4 * q + loc_bits l <= K0 * 4).
  { pose proof (loc_bits_range l).
    destruct (Z.eq_dec q K0) as [E|NE]; [|lia].
    assert (Er : r = 0) by nia.
    unfold l. rewrite Er, new_location_0. cbn [loc_bits]. lia. }
  pose proof (pow2_pos n ltac:(lia)) as Pn.
  set (G := K * 2 ^ (- e' - n)).
  assert (EG : K0 = G * 2 ^ n).
  { unfold K0, G. rewrite <- Z.mul_assoc, <- Z.pow_add_r by (unfold e'; lia).
    do 2 f_equal. lia. }
  rewrite (binary_round_aux_spec 53 1024 ltac:(lia) false q e' l (53 + n));
    [|lia|replace (53 + n - 1) with (52 + n) by lia; exact Bq|unfold emin, e'; lia].
  replace (Z.max 0 (53 + n - 53)) with n by lia.
  set (m1 := rne (4 * q + loc_bits l) (n + 2)).
  assert (U1 : m1 <= G).
  { apply rne_le; [lia|]. rewrite Z.pow_add_r by lia. change (2 ^ 2) with 4. lia. }
  assert (L1 : 2 ^ 52 <= m1).
  { apply rne_ge; [lia|]. pose proof (loc_bits_range l).
    rewrite Z.pow_add_r in Bq by lia.
    rewrite Z.pow_add_r by lia. change (2 ^ 2) with 4. lia. }
  assert (EK : G * 2 ^ (e' + n + 105) = K * 2 ^ 105).
  { unfold G. rewrite <- Z.mul_assoc, <- Z.pow_add_r by (unfold e'; lia).
    do 2 f_equal. lia. }
  pose proof (pow2_pos (e' + n + 105) ltac:(unfold e'; lia)) as PE.
  destruct (Z.ltb_spec m1 (2 ^ 53)) as [C|C].
  - rewrite mk_float_finite by (unfold e'; lia).
    exists (Z.to_pos m1), (e' + n). rewrite Z2Pos.id by lia.
    split; [reflexivity|]. split; [simpl; lia|]. split; [unfold e'; lia|].
    replace (e' + n - -105) with (e' + n + 105) by lia.
    change (- -105) with 105. nia.
  - rewrite mk_float_finite by (unfold e'; simpl; lia).
    exists (Z.to_pos (2 ^ (53 - 1))), (e' + n + 1).
    split; [reflexivity|]. split; [simpl; lia|]. split; [unfold e'; lia|].
    replace (e' + n + 1 - -105) with (e' + n + 105 + 1) by lia.
    change (- -105) with 105. rewrite pow2_succ by lia.
    change (Zpos (Z.to_pos (2 ^ (53 - 1)))) with (2 ^ 52). nia.
Qed.

Lemma normal_le_exponent prec lo K k x :
  0 < prec -> lo <= 0 -> 0 <= k -> K < 2 ^ k -> normal_le prec lo K x ->
  exists m e, x = S754_finite false m e /\
              2 ^ (prec - 1) <= Zpos m < 2 ^ prec /\ lo <= e /\ e + prec - 1 < k /\
              Zpos m * 2 ^ (e - lo) <= K * 2 ^ (- lo).
Proof.
  intros Hp Hlo Hk HK (m & e & -> & Bm & He & Hv).
  exists m, e. repeat split; try lia.
  pose proof (pow2_pos (e - lo) ltac:(lia)) as P1.
  pose proof (pow2_pos (- lo) ltac:(lia)) as P2.
  assert (L : 2 ^ (prec - 1 + (e - lo)) < 2 ^ (k + - lo)).
  { rewrite !Z.pow_add_r by lia. nia. }
  apply pow2_lt_inv in L; lia.
Qed.

(** Narrowing a double of value at most [K] gives a float of value at most
    [K]. *)
Lemma of_double_normal_le lo K x :
  -149 <= lo <= 0 -> K < 2 ^ 23 ->
  normal_le 53 lo K x -> normal_le 24 lo K (F32.of_double x).
Proof.
  intros Hlo HK H.
  destruct (normal_le_exponent 53 lo K 23 x ltac:(lia) ltac:(lia) ltac:(lia) HK H)
    as (m & e & -> & Bm & He & He' & Hv).
  cbn [F32.of_double cond_Zopp binary_normalize]. unfold F32.prec, F32.emax.
  rewrite (binary_round_inexact 24 128 ltac:(lia) false m e 53);
    [|apply digits2_pos_unique; exact Bm|lia|unfold emin; lia].
  cbv zeta. change (53 - 24) with 29.
  pose proof (pow2_pos (e - lo) ltac:(lia)) as P1.
  pose proof (pow2_pos (- e) ltac:(lia)) as P2.
  assert (Hm : Zpos m <= K * 2 ^ (- e)).
  { replace (- lo) with (- e + (e - lo)) in Hv by lia.
    rewrite Z.pow_add_r in Hv by lia. nia. }
  set (G := K * 2 ^ (- e - 29)).
  assert (EG : K * 2 ^ (- e) = G * 2 ^ 29).
  { unfold G. rewrite <- Z.mul_assoc, <- Z.pow_add_r by lia. do 2 f_equal. lia. }
  set (m1 := rne (Zpos m) 29).
  assert (U1 : m1 <= G) by (apply rne_le; lia).
  assert (L1 : 2 ^ 23 <= m1).
  { apply rne_ge; [lia|]. change (2 ^ 23 * 2 ^ 29) with (2 ^ 52). simpl in Bm. lia. }
  assert (EK : G * 2 ^ (e + 29 - lo) = K * 2 ^ (- lo)).
  { unfold G. rewrite <- Z.mul_assoc, <- Z.pow_add_r by lia. do 2 f_equal. lia. }
  pose proof (pow2_pos (e + 29 - lo) ltac:(lia)) as PE.
  destruct (Z.ltb_spec m1 (2 ^ 24)) as [C|C].
  - rewrite mk_float_finite by lia.
    exists (Z.to_pos m1), (e + 29). rewrite Z2Pos.id by lia.
    split; [reflexivity|]. split; [simpl; lia|]. split; [lia|]. nia.
  - rewrite mk_float_finite by (simpl; lia).
    exists (Z.to_pos (2 ^ (24 - 1))), (e + 29 + 1).
    split; [reflexivity|]. split; [simpl; lia|]. split; [lia|].
    replace (e + 29 + 1 - lo) with (e + 29 - lo + 1) by lia.
    rewrite pow2_succ by lia.
    change (Zpos (Z.to_pos (2 ^ (24 - 1)))) with (2 ^ 23). nia.
Qed.

Lemma normal_le_255 lo x :
  lo <= 0 -> normal_le 24 lo 255 x -> SFleb x f255 = true.
Proof.
  intros Hlo H.
  destruct (normal_le_exponent 24 lo 255 8 x ltac:(lia) Hlo ltac:(lia) ltac:(lia) H)
    as (m & e & -> & Bm & He & He' & Hv).
  change f255 with (S754_finite false 16711680 (-16)).
  unfold SFleb. cbn [SFcompare].
  destruct (Z.compare_spec e (-16)) as [E|L|G]; [| reflexivity | lia].
  subst e. rewrite Pos.compare_cont_spec. cbn [Pos.switch_Eq].
  pose proof (pow2_pos (-16 - lo) ltac:(lia)) as P1.
  assert (Hm : Zpos m <= 16711680).
  { replace (- lo) with (16 + (-16 - lo)) in Hv by lia.
    rewrite Z.pow_add_r in Hv by lia. change (2 ^ 16) with 65536 in Hv. nia. }
  destruct (Pos.compare_spec m 16711680) as [E|L|G]; [reflexivity | reflexivity | lia].
Qed.

(** ** Exact accumulation below [2^53] *)

Lemma total_bounds l : 0 <= total l <= 255 * Z.of_nat (length l).
Proof.
  induction l as [|v l IH]; [simpl; lia|].
  pose proof (u8_range v). cbn [total length]. lia.
Qed.

Lemma total_repeat c n : total (repeat c n) = u8 c * Z.of_nat n.
Proof. induction n as [|n IH]; [simpl; lia|]. cbn [repeat total]. lia. Qed.

Lemma double_sum_from l : forall acc,
  0 <= acc -> acc + total l < 2 ^ 53 ->
  fold_left (fun s v => F64.add s (double_of_u8 v)) l (F64.of_int acc) =
  F64.of_int (acc + total l).
Proof.
  induction l as [|v l IH]; intros acc Ha Hb; cbn [fold_left total].
  - now rewrite Z.add_0_r.
  - pose proof (u8_range v). pose proof (total_bounds l). cbn [total] in Hb.
    unfold double_of_u8. rewrite F64_add_of_int by lia.
    rewrite IH by lia. f_equal. lia.
Qed.

Lemma double_sum_exact l : total l < 2 ^ 53 -> double_sum l = F64.of_int (total l).
Proof. intros H. apply (double_sum_from l 0); lia. Qed.

Lemma length_region_offsets w h rs :
  length (region_offsets w h rs) = (Z.to_nat h * Z.to_nat w)%nat.
Proof.
  unfold region_offsets, upto. generalize 0 at 2. generalize (Z.to_nat h).
  induction n as [|n IH]; intros i; simpl; [reflexivity|].
  rewrite length_app, IH, length_map, length_zrange. reflexivity.
Qed.

Lemma length_samples buf w h rs bs :
  0 <= w -> 0 <= h -> samples buf w h rs = Some bs ->
  Z.of_nat (length bs) = w * h.
Proof.
  intros Hw Hh E. apply length_read_all in E.
  rewrite E, length_region_offsets. lia.
Qed.

(** The mean of at most [2^53 / 255] samples lies between 0 and 255. *)
Lemma spec_mean_le_255 l N :
  Z.of_nat (length l) = N -> 0 < N -> 255 * N < 2 ^ 53 ->
  SFleb (spec_mean l N) f255 = true.
Proof.
  intros HL HN Hb. pose proof (total_bounds l) as T. rewrite HL in T.
  unfold spec_mean, spec_mean_double. rewrite double_sum_exact by lia.
  destruct (Z.eq_dec (total l) 0) as [->|NZ].
  - rewrite of_int_0, F64_div_zero by (apply of_int_pos_finite; lia). reflexivity.
  - rewrite !of_int_nat53 by lia.
    apply (normal_le_255 (-105)); [lia|].
    apply of_double_normal_le; [lia|lia|].
    apply F64_div_nat53_le; lia.
Qed.

(** ** Constant buffers *)

Lemma read_all_const buf c offs :
  (forall o, In o offs -> read_u8 buf o = Some c) ->
  read_all buf offs = Some (repeat c (length offs)).
Proof.
  induction offs as [|o offs IH]; intros H; simpl; [reflexivity|].
  rewrite (H o) by (left; reflexivity).
  rewrite IH by (intros; apply H; right; assumption). reflexivity.
Qed.

Lemma narrow_u8 c : F32.of_double (double_of_u8 c) = F32.of_int (u8 c).
Proof. destruct c; vm_compute; reflexivity. Qed.

Lemma sub_self_u8 c : F64.sub (double_of_u8 c) (double_of_u8 c) = S754_zero false.
Proof. destruct c; vm_compute; reflexivity. Qed.

Lemma sq_dev_sum_const c n : sq_dev_sum (double_of_u8 c) (repeat c n) = F64.zero.
Proof.
  unfold sq_dev_sum. induction n as [|n IH]; [reflexivity|].
  cbn [repeat fold_left]. rewrite sub_self_u8. exact IH.
Qed.

Lemma stats_const c n N :
  Z.of_nat n = N -> 0 < N < 2 ^ 63 -> u8 c * N < 2 ^ 53 ->
  stats (repeat c n) N = {| a := F32.of_int (u8 c); b := F32.zero |}.
Proof.
  intros Hn HN Hb. pose proof (u8_range c) as R.
  assert (Em : spec_mean_double (repeat c n) N = double_of_u8 c).
  { unfold spec_mean_double. rewrite double_sum_exact, total_repeat, Hn by
      (rewrite total_repeat, Hn; lia).
    apply F64_div_of_int_exact; lia. }
  unfold stats, spec_mean, spec_stddev. rewrite Em, narrow_u8, sq_dev_sum_const.
  unfold F64.zero. rewrite F64_div_zero by (apply of_int_pos_finite; lia).
  reflexivity.
Qed.

(** ** Beyond [2^53]: the accumulation of a saturated image *)

Lemma fold_left_repeat {A B} (f : A -> B -> A) c n :
  forall s, fold_left f (repeat c n) s = Nat.iter n (fun s => f s c) s.
Proof.
  induction n as [|n IH]; intros s; [reflexivity|].
  cbn [repeat fold_left]. rewrite IH. symmetry. apply Nat.iter_succ_r.
Qed.

(** Once the sum has reached [2^53] its unit in the last place is 2: adding
    255 falls halfway between two doubles and is rounded to the even one,
    256 above. *)
Lemma add_255_tie m :
  Z.even m = true -> 2 ^ 52 <= m -> m + 128 < 2 ^ 53 ->
  F64.add (S754_finite false (Z.to_pos m) 1) (double_of_u8 xff) =
  S754_finite false (Z.to_pos (m + 128)) 1.
Proof.
  intros Ev Lo Hi.
  change (double_of_u8 xff) with (S754_finite false 8972014882652160 (-45)).
  unfold F64.add. rewrite SFadd_pos.
  change (Z.min 1 (-45)) with (-45). change (1 - -45) with 46.
  change (-45 - -45) with 0. rewrite Z2Pos.id by lia.
  change (2 ^ 46) with 70368744177664. change (2 ^ 0) with 1.
  change (2 ^ 52) with 4503599627370496 in Lo.
  change (2 ^ 53) with 9007199254740992 in Hi.
  destruct (m * 70368744177664 + 8972014882652160 * 1) as [|M|M] eqn:EM; try lia.
  cbn [binary_normalize]. unfold F64.prec, F64.emax.
  rewrite (binary_round_inexact 53 1024 ltac:(lia) false M (-45) 99);
    [| |lia|unfold emin; lia].
  - cbv zeta. change (99 - 53) with 46.
    assert (ER : rne (Zpos M) 46 = m + 128).
    { unfold rne. change (2 ^ 46) with 70368744177664.
      replace (Zpos M / 70368744177664) with (m + 127)
        by (apply Z.div_unique_pos with (r := 35184372088832); lia).
      replace (Zpos M mod 70368744177664) with 35184372088832
        by (apply Z.mod_unique_pos with (q := m + 127); lia).
      change (2 * 35184372088832 ?= 70368744177664) with Eq.
      rewrite Z.even_add, Ev. change (Z.even 127) with false.
      cbn [Bool.eqb]. lia. }
    rewrite ER.
    destruct (Z.ltb_spec (m + 128) (2 ^ 53)) as [_|C];
      [|change (2 ^ 53) with 9007199254740992 in C; lia].
    rewrite mk_float_finite by lia. reflexivity.
  - apply digits2_pos_unique. rewrite <- EM.
    change (2 ^ (99 - 1)) with 316912650057057350374175801344.
    change (2 ^ 99) with 633825300114114700748351602688. lia.
Qed.

Lemma iter_add_255 j : forall m,
  Z.even m = true -> 2 ^ 52 <= m -> m + 128 * Z.of_nat j < 2 ^ 53 ->
  Nat.iter j (fun s => F64.add s (double_of_u8 xff))
           (S754_finite false (Z.to_pos m) 1) =
  S754_finite false (Z.to_pos (m + 128 * Z.of_nat j)) 1.
Proof.
  induction j as [|j IH]; intros m Ev Lo Hi.
  - replace (m + 128 * Z.of_nat 0) with m by lia. reflexivity.
  - rewrite Nat.iter_succ, IH; [|assumption|lia|lia].
    rewrite add_255_tie; [do 2 f_equal; lia | | lia | lia].
    rewrite Z.even_add, Ev, Z.even_mul. reflexivity.
Qed.

(** The double sum of [2^46] samples of value 255 is
    [8989538079731696 * 2], which is more than [255 * 2^46]: the first
    [35322350018592] additions are exact, the next one crosses [2^53], and
    each of the remaining [35046394159071] adds 256. *)
Lemma double_sum_saturated_split k j :
  Z.of_nat k = 35322350018592 -> Z.of_nat j = 35046394159071 ->
  double_sum (repeat xff (k + (1 + j))) = S754_finite false 8989538079731696 1.
Proof.
  intros Hk Hj.
  rewrite !repeat_app. unfold double_sum. rewrite !fold_left_app.
  change F64.zero with (F64.of_int 0).
  rewrite double_sum_from; rewrite ?total_repeat, ?Hk; change (u8 xff) with 255;
    [|lia|change (2 ^ 53) with 9007199254740992; lia].
  cbn [repeat fold_left].
  replace (F64.add (F64.of_int (0 + 255 * 35322350018592)) (double_of_u8 xff))
    with (S754_finite false (Z.to_pos 4503599627370608) 1)
    by (vm_compute; reflexivity).
  rewrite fold_left_repeat, iter_add_255; rewrite ?Hj.
  - reflexivity.
  - reflexivity.
  - change (2 ^ 52) with 4503599627370496. lia.
  - change (2 ^ 53) with 9007199254740992. lia.
Qed.

Lemma double_sum_saturated n :
  Z.of_nat n = 2 ^ 46 ->
  double_sum (repeat xff n) = S754_finite false 8989538079731696 1.
Proof.
  intros Hn.
  assert (En : exists k j, Z.of_nat k = 35322350018592 /\
                           Z.of_nat j = 35046394159071 /\
                           n = (k + (1 + j))%nat).
  { exists (Z.to_nat 35322350018592), (Z.to_nat 35046394159071).
    change (2 ^ 46) with 70368744177664 in Hn. lia. }
  destruct En as (k & j & Hk & Hj & ->).
  now apply double_sum_saturated_split.
Qed.

Lemma read_u8_repeat c n o :
  0 <= o < Z.of_nat n -> read_u8 (repeat c n) o = Some c.
Proof.
  intros Ho. unfold read_u8. destruct (Z.ltb_spec o 0); [lia|].
  apply nth_error_repeat. lia.
Qed.

Lemma saturated_valid_gen n w h rs :
  Z.of_nat n = 2 ^ 46 -> w = 2 ^ 23 -> h = 2 ^ 23 -> rs = 2 ^ 23 ->
  valid_input (repeat xff n) w h rs.
Proof.
  intros Hn Hw Hh Hr. unfold valid_input, is_int32, readable.
  rewrite repeat_length, Hn.
  change (2 ^ 46) with 70368744177664. change (2 ^ 31) with 2147483648.
  change (2 ^ 23) with 8388608 in Hw, Hh, Hr. lia.
Qed.

Lemma saturated_samples_gen n w h rs :
  Z.of_nat n = 2 ^ 46 -> w = 2 ^ 23 -> h = 2 ^ 23 -> rs = 2 ^ 23 ->
  forall y x, 0 <= y < h -> 0 <= x < w ->
              read_u8 (repeat xff n) (y * rs + x) = Some xff.
Proof.
  intros Hn Hw Hh Hr y x Hy Hx. apply read_u8_repeat. rewrite Hn.
  change (2 ^ 46) with 70368744177664.
  change (2 ^ 23) with 8388608 in Hw, Hh, Hr. nia.
Qed.

Lemma saturated_result_gen n w h rs :
  Z.of_nat n = 2 ^ 46 -> w = 2 ^ 23 -> h = 2 ^ 23 -> rs = 2 ^ 23 ->
  exists r, process_gray (Some (repeat xff n)) w h rs = Some r /\
            a r = S754_finite false 16744319 (-16).
Proof.
  intros Hn Hw Hh Hr.
  destruct (process_gray_valid _ _ _ _ (saturated_valid_gen n w h rs Hn Hw Hh Hr))
    as (bs & Es & E).
  exists (stats bs (w * h)). split; [exact E|].
  unfold samples in Es.
  rewrite (read_all_const _ xff) in Es.
  2:{ intros o Ho. apply In_region_offsets in Ho.
      destruct Ho as (y & x & Hy & Hx & ->).
      now apply (saturated_samples_gen n w h rs). }
  assert (Eb : bs = repeat xff (length (region_offsets w h rs))) by congruence.
  change (2 ^ 23) with 8388608 in Hw, Hh, Hr.
  cbn [stats a]. unfold spec_mean, spec_mean_double.
  rewrite Eb.
  rewrite double_sum_saturated.
  2:{ rewrite length_region_offsets. change (2 ^ 46) with 70368744177664. nia. }
  replace (w * h) with 70368744177664 by nia.
  vm_compute. reflexivity.
Qed.

Lemma saturated_size : Z.of_nat (Z.to_nat (2 ^ 46)) = 2 ^ 46.
Proof. apply Z2Nat.id. apply Z.pow_nonneg. lia. Qed.

Lemma saturated_valid : valid_input saturated_buffer 8388608 8388608 8388608.
Proof. exact (saturated_valid_gen _ _ _ _ saturated_size eq_refl eq_refl eq_refl). Qed.

Lemma saturated_samples y x :
  0 <= y < 8388608 -> 0 <= x < 8388608 ->
  read_u8 saturated_buffer (y * 8388608 + x) = Some xff.
Proof.
  exact (saturated_samples_gen _ _ _ _ saturated_size eq_refl eq_refl eq_refl y x).
Qed.

Lemma saturated_result :
  exists r, process_gray (Some saturated_buffer) 8388608 8388608 8388608 = Some r /\
            a r = S754_finite false 16744319 (-16).
Proof. exact (saturated_result_gen _ _ _ _ saturated_size eq_refl eq_refl eq_refl). Qed.

(** ** Reads *)

Lemma degenerate_true data w h rs :
  data = None \/ w <= 0 \/ h <= 0 \/ rs <= 0 -> degenerate data w h rs = true.
Proof.
  unfold degenerate. intros [->|[H|[H|H]]]; [reflexivity| | |];
    apply Z.leb_le in H; rewrite H; rewrite ?orb_true_r; reflexivity.
Qed.

Lemma degenerate_false_inv data w h rs :
  degenerate data w h rs = false -> data <> None /\ 0 < w /\ 0 < h /\ 0 < rs.
Proof.
  unfold degenerate. intros H.
  apply orb_false_iff in H. destruct H as [H Hr].
  apply orb_false_iff in H. destruct H as [H Hh].
  apply orb_false_iff in H. destruct H as [Hd Hw].
  apply Z.leb_gt in Hw, Hh, Hr. repeat split; try assumption.
  intros ->. discriminate.
Qed.

Lemma reads_of_region buf w h rs offs :
  is_int32 w -> is_int32 h -> is_int32 rs -> 0 < w -> 0 < h -> 0 < rs ->
  reads_of (Some buf) w h rs = Some offs ->
  offs = region_offsets w h rs ++ region_offsets w h rs.
Proof.
  intros Iw Ih Ir Hw Hh Hr. unfold reads_of.
  rewrite process_gray_m_folds by assumption.
  destruct (samples buf w h rs); simpl; [|discriminate].
  intros E. inversion E.
  rewrite app_nil_r, rev_app_distr, !rev_involutive. reflexivity.
Qed.

Lemma float_of_u8_value c : has_value (F32.of_int (u8 c)) (inject_Z (u8 c)).
Proof. destruct c; vm_compute; reflexivity. Qed.

Lemma valid_2x2 : valid_input [x00; xff; x00; xff] 2 2 2.
Proof. unfold valid_input, is_int32, readable. simpl. lia. Qed.

(** * The claims of the specification *)

(** C1. On every valid input the returned mean is the quotient of the sum of
    the [width * height] samples of the region, accumulated in double
    precision in row-major order, by [N = width * height], narrowed to a
    32-bit float.  While [255 * N < 2^53] no addition rounds: the mean is
    then the exact integer sum divided by [N], rounded once to double and
    once to float. *)
Theorem process_gray_mean buf width height rowStride :
  valid_input buf width height rowStride ->
  exists bs r,
    samples buf width height rowStride = Some bs /\
    Z.of_nat (length bs) = width * height /\
    process_gray (Some buf) width height rowStride = Some r /\
    a r = spec_mean bs (width * height) /\
    (255 * (width * height) < 2 ^ 53 ->
     a r = F32.of_double (F64.div (F64.of_int (total bs))
                                  (F64.of_int (width * height)))).
Proof.
  intros V. destruct (process_gray_valid _ _ _ _ V) as (bs & Es & E).
  assert (L : Z.of_nat (length bs) = width * height).
  { destruct V as (_ & _ & _ & Hw & Hh & _).
    apply (length_samples buf width height rowStride); [lia | lia | exact Es]. }
  exists bs, (stats bs (width * height)).
  repeat split; try assumption.
  intros Hb. cbn [stats a]. unfold spec_mean, spec_mean_double.
  rewrite double_sum_exact; [reflexivity|].
  pose proof (total_bounds bs). lia.
Qed.

Lemma process_gray_mean_witness :
  valid_input [x00; xff; x00; xff] 2 2 2 /\
  exists bs r,
    samples [x00; xff; x00; xff] 2 2 2 = Some bs /\
    Z.of_nat (length bs) = 2 * 2 /\
    process_gray (Some [x00; xff; x00; xff]) 2 2 2 = Some r /\
    a r = spec_mean bs (2 * 2) /\
    a r = F32.of_double (F64.div (F64.of_int (total bs)) (F64.of_int (2 * 2))).
Proof.
  split; [exact valid_2x2|].
  destruct (process_gray_mean [x00; xff; x00; xff] 2 2 2 valid_2x2)
    as (bs & r & Es & L & E & Ea & Ex).
  exists bs, r. repeat split; try assumption.
  apply Ex. vm_compute. reflexivity.
Defined.

(** C2. On every valid input the returned stddev is the square root of the
    quotient by [N] of the sum of the squared deviations of the samples from
    the double mean of the first pass, accumulated in double precision in a
    second pass over the same region and narrowed to a 32-bit float: the
    population standard deviation. *)
Theorem process_gray_stddev buf width height rowStride :
  valid_input buf width height rowStride ->
  exists bs r,
    samples buf width height rowStride = Some bs /\
    process_gray (Some buf) width height rowStride = Some r /\
    b r = F32.of_double
            (F64.sqrt
               (F64.div (sq_dev_sum (spec_mean_double bs (width * height)) bs)
                        (F64.of_int (width * height)))) /\
    reads_of (Some buf) width height rowStride =
      Some (region_offsets width height rowStride ++
            region_offsets width height rowStride).
Proof.
  intros V. destruct (process_gray_valid _ _ _ _ V) as (bs & Es & E).
  exists bs, (stats bs (width * height)).
  repeat split; try assumption.
  destruct V as (Iw & Ih & Ir & Hw & Hh & Hr & _).
  destruct (reads_of (Some buf) width height rowStride) as [offs|] eqn:R.
  - f_equal. now apply (reads_of_region buf).
  - unfold reads_of in R. unfold process_gray in E.
    destruct (process_gray_m (Some buf) width height rowStride []); discriminate.
Qed.

Lemma process_gray_stddev_witness :
  valid_input [x00; xff; x00; xff] 2 2 2 /\
  exists bs r,
    samples [x00; xff; x00; xff] 2 2 2 = Some bs /\
    process_gray (Some [x00; xff; x00; xff]) 2 2 2 = Some r /\
    b r = F32.of_double
            (F64.sqrt (F64.div (sq_dev_sum (spec_mean_double bs (2 * 2)) bs)
                               (F64.of_int (2 * 2)))) /\
    reads_of (Some [x00; xff; x00; xff]) 2 2 2 =
      Some (region_offsets 2 2 2 ++ region_offsets 2 2 2).
Proof.
  split; [exact valid_2x2|].
  exact (process_gray_stddev [x00; xff; x00; xff] 2 2 2 valid_2x2).
Defined.

(** C3. A null buffer or a non-positive width, height or row stride makes
    the routine return the struct [{0.0, 0.0}]; the call is defined (it
    returns a [Result]) whatever the buffer holds. *)
Theorem process_gray_degenerate data width height rowStride :
  data = None \/ width <= 0 \/ height <= 0 \/ rowStride <= 0 ->
  process_gray data width height rowStride =
  Some {| a := S754_zero false; b := S754_zero false |}.
Proof.
  intros H. unfold process_gray, process_gray_m.
  rewrite (degenerate_true _ _ _ _ H). reflexivity.
Qed.

Lemma process_gray_degenerate_witness :
  process_gray (Some [xc8]) 0 7 7 = Some {| a := S754_zero false; b := S754_zero false |} /\
  process_gray (Some [xc8]) 1 (-1) 1 = Some {| a := S754_zero false; b := S754_zero false |} /\
  process_gray None 1 1 1 = Some {| a := S754_zero false; b := S754_zero false |}.
Proof.
  split; [|split].
  - apply (process_gray_degenerate (Some [xc8]) 0 7 7). right. left. lia.
  - apply (process_gray_degenerate (Some [xc8]) 1 (-1) 1). right. right. left. lia.
  - apply (process_gray_degenerate None 1 1 1). left. reflexivity.
Defined.

(** C4. The result depends on the region only: two buffers that agree on
    the first [width] bytes of each of the [height] rows (row [y] starting at
    offset [y * rowStride]) give the same result whatever they hold, or do
    not hold, elsewhere; the offsets read are those of the region, twice; and
    for [width=2, height=1, rowStride=4, buffer=[10,20,99,99]] the result is
    [mean=15.0, stddev=5.0]. *)
Theorem process_gray_ignores_padding buf1 buf2 width height rowStride :
  is_int32 width -> is_int32 height -> is_int32 rowStride ->
  (forall y x, 0 <= y < height -> 0 <= x < width ->
               read_u8 buf1 (y * rowStride + x) = read_u8 buf2 (y * rowStride + x)) ->
  process_gray (Some buf1) width height rowStride =
  process_gray (Some buf2) width height rowStride /\
  (forall offs o,
     reads_of (Some buf1) width height rowStride = Some offs -> In o offs ->
     exists y x, 0 <= y < height /\ 0 <= x < width /\ o = y * rowStride + x) /\
  process_gray (Some [x0a; x14; x63; x63]) 2 1 4 =
    Some {| a := F32.of_int 15; b := F32.of_int 5 |} /\
  has_value (F32.of_int 15) 15 /\ has_value (F32.of_int 5) 5.
Proof.
  intros Iw Ih Ir Agree.
  destruct (degenerate (Some buf1) width height rowStride) eqn:D.
  - (* nothing is read at all *)
    assert (D2 : degenerate (Some buf2) width height rowStride = true) by exact D.
    split; [|split; [|split; [vm_compute; reflexivity | split; vm_compute; reflexivity]]].
    + unfold process_gray, process_gray_m. rewrite D, D2. reflexivity.
    + intros offs o R Ho. unfold reads_of, process_gray_m in R. rewrite D in R.
      inversion R; subst. contradiction.
  - destruct (degenerate_false_inv _ _ _ _ D) as (_ & Hw & Hh & Hr).
    split; [|split; [|split; [vm_compute; reflexivity | split; vm_compute; reflexivity]]].
    + unfold process_gray. rewrite !process_gray_m_folds by assumption.
      unfold samples.
      rewrite (read_all_ext buf1 buf2); [reflexivity|].
      intros o Ho. apply In_region_offsets in Ho.
      destruct Ho as (y & x & Hy & Hx & ->). now apply Agree.
    + intros offs o R Ho.
      rewrite (reads_of_region buf1 width height rowStride offs) in Ho by assumption.
      apply in_app_or in Ho. apply In_region_offsets. tauto.
Qed.

Lemma process_gray_ignores_padding_witness :
  process_gray (Some [x0a; x14; x63; x63]) 2 1 4 = process_gray (Some [x0a; x14]) 2 1 4 /\
  reads_of (Some [x0a; x14; x63; x63]) 2 1 4 = Some [0; 1; 0; 1].
Proof.
  assert (I2 : is_int32 2) by (unfold is_int32; simpl; lia).
  assert (I1 : is_int32 1) by (unfold is_int32; simpl; lia).
  assert (I4 : is_int32 4) by (unfold is_int32; simpl; lia).
  assert (Agree : forall y x, 0 <= y < 1 -> 0 <= x < 2 ->
            read_u8 [x0a; x14; x63; x63] (y * 4 + x) = read_u8 [x0a; x14] (y * 4 + x)).
  { intros y x Hy Hx.
    assert (Y : y = 0) by lia. assert (X : x = 0 \/ x = 1) by lia.
    subst y. destruct X; subst x; reflexivity. }
  split; [|reflexivity].
  exact (proj1 (process_gray_ignores_padding [x0a; x14; x63; x63] [x0a; x14]
                  2 1 4 I2 I1 I4 Agree)).
Defined.

(** C5. On every valid input the returned stddev is greater than or equal
    to zero. *)
Theorem process_gray_stddev_nonneg buf width height rowStride :
  valid_input buf width height rowStride ->
  exists r, process_gray (Some buf) width height rowStride = Some r /\
            SFleb F32.zero (b r) = true.
Proof.
  intros V. destruct (process_gray_valid _ _ _ _ V) as (bs & _ & E).
  exists (stats bs (width * height)). split; [exact E|].
  apply has_sign_false_ge_0. cbn [stats b].
  apply spec_stddev_nonneg. apply (valid_count _ _ _ _ V).
Qed.

Lemma process_gray_stddev_nonneg_witness :
  valid_input [x00; xff; x00; xff] 2 2 2 /\
  exists r, process_gray (Some [x00; xff; x00; xff]) 2 2 2 = Some r /\
            SFleb F32.zero (b r) = true.
Proof.
  split; [exact valid_2x2|].
  exact (process_gray_stddev_nonneg [x00; xff; x00; xff] 2 2 2 valid_2x2).
Defined.

(** C6, as stated, fails: the [2^46] samples of [saturated_buffer] all
    equal 255, yet the returned mean is [16744319 / 2^16], about 255.498. *)
Lemma constant_buffer_counterexample :
  valid_input saturated_buffer 8388608 8388608 8388608 /\
  (forall y x, 0 <= y < 8388608 -> 0 <= x < 8388608 ->
               read_u8 saturated_buffer (y * 8388608 + x) = Some xff) /\
  exists r, process_gray (Some saturated_buffer) 8388608 8388608 8388608 = Some r /\
            SFeqb (a r) (F32.of_int (u8 xff)) = false /\
            has_value (a r) (16744319 # 65536).
Proof.
  split; [exact saturated_valid|]. split; [exact saturated_samples|].
  destruct saturated_result as (r & E & Ea).
  exists r. split; [exact E|]. rewrite Ea. split; vm_compute; reflexivity.
Qed.

(** C6, amended. On every valid input whose samples in the region all equal
    a constant [c], with [c * width * height < 2^53] so that the double
    accumulation is exact, the returned mean is [c] and the returned stddev
    is 0. *)
Theorem process_gray_constant buf width height rowStride c :
  valid_input buf width height rowStride ->
  (forall y x, 0 <= y < height -> 0 <= x < width ->
               read_u8 buf (y * rowStride + x) = Some c) ->
  u8 c * (width * height) < 2 ^ 53 ->
  exists r, process_gray (Some buf) width height rowStride = Some r /\
            a r = F32.of_int (u8 c) /\ has_value (a r) (inject_Z (u8 c)) /\
            b r = F32.zero /\ has_value (b r) 0.
Proof.
  intros V Hc Hb. destruct (process_gray_valid _ _ _ _ V) as (bs & Es & E).
  pose proof (valid_count _ _ _ _ V) as HN.
  assert (Eb : bs = repeat c (length (region_offsets width height rowStride))).
  { unfold samples in Es. rewrite (read_all_const _ c) in Es.
    - now inversion Es.
    - intros o Ho. apply In_region_offsets in Ho.
      destruct Ho as (y & x & Hy & Hx & ->). now apply Hc. }
  rewrite Eb in E.
  rewrite (stats_const c _ (width * height)) in E; try assumption.
  - eexists. split; [exact E|]. cbn [a b].
    split; [reflexivity|]. split; [apply float_of_u8_value|].
    split; reflexivity.
  - destruct V as (_ & _ & _ & Hw & Hh & _).
    rewrite length_region_offsets. lia.
Qed.

Lemma process_gray_constant_witness :
  valid_input [x07; x07; x00; x07; x07; x00] 2 2 3 /\
  exists r, process_gray (Some [x07; x07; x00; x07; x07; x00]) 2 2 3 = Some r /\
            a r = F32.of_int (u8 x07) /\ has_value (a r) (inject_Z (u8 x07)) /\
            b r = F32.zero /\ has_value (b r) 0.
Proof.
  assert (V : valid_input [x07; x07; x00; x07; x07; x00] 2 2 3)
    by (unfold valid_input, is_int32, readable; simpl; lia).
  split; [exact V|].
  apply (process_gray_constant [x07; x07; x00; x07; x07; x00] 2 2 3 x07 V).
  - intros y x Hy Hx.
    assert (Y : y = 0 \/ y = 1) by lia. assert (X : x = 0 \/ x = 1) by lia.
    destruct Y, X; subst; reflexivity.
  - vm_compute. reflexivity.
Defined.

(** C7. For [width=2, height=2, rowStride=2, buffer=[0,255,0,255]] the
    routine returns [mean = 127.5] and [stddev = 127.5]. *)
Theorem process_gray_0_255 :
  exists r, process_gray (Some [x00; xff; x00; xff]) 2 2 2 = Some r /\
            has_value (a r) (255 # 2) /\ has_value (b r) (255 # 2).
Proof.
  exists {| a := S754_finite false 16711680 (-17);
            b := S754_finite false 16711680 (-17) |}.
  split; [vm_compute; reflexivity|]. split; vm_compute; reflexivity.
Qed.

(** C8. For 32-bit inputs the 64-bit products [(int64_t)width * height] and
    [(int64_t)y * rowStride], for every row [y] visited, are the exact
    integer products: nothing wraps. *)
Theorem products_exact_in_int64 width height rowStride :
  is_int32 width -> is_int32 height -> is_int32 rowStride ->
  0 < width -> 0 < height -> 0 < rowStride ->
  sample_count width height = width * height /\
  forall y, 0 <= y < height -> row_offset y rowStride = y * rowStride.
Proof.
  intros Iw Ih Ir Hw Hh Hr. split.
  - now apply sample_count_exact.
  - intros y Hy. apply row_offset_exact; [|assumption].
    unfold is_int32 in *. lia.
Qed.

Lemma products_exact_in_int64_witness :
  (sample_count 2147483647 2147483647 = 4611686014132420609 /\
   forall y, 0 <= y < 2147483647 -> row_offset y 2147483647 = y * 2147483647) /\
  2 ^ 31 - 1 < 4611686014132420609 /\
  int32_t (2147483647 * 2147483647) = 1.
Proof.
  split; [|split; [reflexivity | reflexivity]].
  apply (products_exact_in_int64 2147483647 2147483647 2147483647);
    unfold is_int32; simpl; lia.
Defined.

(** C9. When the buffer is null or one of width, height and row stride is
    not positive, the routine returns without reading anything: its log of
    reads is the one it started with.  Conversely a run that has read
    anything had a non-null buffer and a positive width, height and row
    stride. *)
Theorem process_gray_guard data width height rowStride t :
  (data = None \/ width <= 0 \/ height <= 0 \/ rowStride <= 0 ->
   process_gray_m data width height rowStride t = Some (zero_result, t)) /\
  (forall r t', process_gray_m data width height rowStride t = Some (r, t') ->
                t' <> t ->
                data <> None /\ 0 < width /\ 0 < height /\ 0 < rowStride).
Proof.
  split.
  - intros H. unfold process_gray_m. rewrite (degenerate_true _ _ _ _ H). reflexivity.
  - intros r t' E Ht.
    destruct (degenerate data width height rowStride) eqn:D.
    + unfold process_gray_m in E. rewrite D in E. inversion E. congruence.
    + now apply degenerate_false_inv.
Qed.

Lemma process_gray_guard_witness :
  process_gray_m None 4 4 4 [] = Some (zero_result, []) /\
  process_gray_m (Some []) 4 0 4 [] = Some (zero_result, []).
Proof.
  split.
  - apply (proj1 (process_gray_guard None 4 4 4 [])). left. reflexivity.
  - apply (proj1 (process_gray_guard (Some []) 4 0 4 [])). right. right. left. lia.
Defined.

(** C10, as stated, fails: on [saturated_buffer] the returned mean is
    greater than 255. *)
Lemma mean_range_counterexample :
  valid_input saturated_buffer 8388608 8388608 8388608 /\
  exists r, process_gray (Some saturated_buffer) 8388608 8388608 8388608 = Some r /\
            SFleb (a r) f255 = false /\ SFltb f255 (a r) = true.
Proof.
  split; [exact saturated_valid|].
  destruct saturated_result as (r & E & Ea).
  exists r. split; [exact E|]. rewrite Ea. split; reflexivity.
Qed.

(** C10, amended. On every valid input the returned mean is greater than or
    equal to 0, and it is at most 255 when [255 * width * height < 2^53], so
    that the double accumulation is exact. *)
Theorem process_gray_mean_range buf width height rowStride :
  valid_input buf width height rowStride ->
  exists r, process_gray (Some buf) width height rowStride = Some r /\
            SFleb F32.zero (a r) = true /\
            (255 * (width * height) < 2 ^ 53 -> SFleb (a r) f255 = true).
Proof.
  intros V. destruct (process_gray_valid _ _ _ _ V) as (bs & Es & E).
  pose proof (valid_count _ _ _ _ V) as HN.
  exists (stats bs (width * height)). split; [exact E|]. cbn [stats a].
  split.
  - apply has_sign_false_ge_0, spec_mean_nonneg, HN.
  - intros Hb. apply spec_mean_le_255; [|lia|exact Hb].
    destruct V as (_ & _ & _ & Hw & Hh & _).
    apply (length_samples buf width height rowStride); [lia | lia | exact Es].
Qed.

Lemma process_gray_mean_range_witness :
  valid_input [x00; xff; x00; xff] 2 2 2 /\
  exists r, process_gray (Some [x00; xff; x00; xff]) 2 2 2 = Some r /\
            SFleb F32.zero (a r) = true /\ SFleb (a r) f255 = true.
Proof.
  split; [exact valid_2x2|].
  destruct (process_gray_mean_range [x00; xff; x00; xff] 2 2 2 valid_2x2)
    as (r & E & L & U).
  exists r. split; [exact E|]. split; [exact L|].
  apply U. vm_compute. reflexivity.
Defined.

(** * Further properties of the routine *)

Lemma process_gray_samples buf w h rs :
  is_int32 w -> is_int32 h -> is_int32 rs -> 0 < w -> 0 < h -> 0 < rs ->
  process_gray (Some buf) w h rs =
  option_map (fun bs => stats bs (w * h)) (samples buf w h rs).
Proof.
  intros Iw Ih Ir Hw Hh Hr. unfold process_gray.
  rewrite process_gray_m_folds by assumption.
  destruct (samples buf w h rs); reflexivity.
Qed.

Lemma read_all_In buf offs : forall bs o,
  read_all buf offs = Some bs -> In o offs -> exists v, read_u8 buf o = Some v.
Proof.
  induction offs as [|o' offs IH]; intros bs o E Ho; [contradiction|].
  simpl in E. destruct (read_u8 buf o') as [v|] eqn:R; [|discriminate].
  destruct (read_all buf offs) as [bs'|]; [|discriminate].
  destruct Ho as [<-|Ho]; [eauto|]. now apply (IH bs').
Qed.

Lemma read_u8_bound buf o v :
  read_u8 buf o = Some v -> 0 <= o < Z.of_nat (length buf).
Proof.
  unfold read_u8. destruct (Z.ltb_spec o 0); [discriminate|]. intros E.
  assert (nth_error buf (Z.to_nat o) <> None) by congruence.
  apply nth_error_Some in H0. lia.
Qed.

(** X1. The routine checks no bound: on a positive 32-bit geometry the call
    is defined exactly when the buffer holds the
    [(height-1)*rowStride + width] bytes up to the last sample of the last
    row, whether or not [rowStride >= width]; on a shorter buffer it reads
    outside the block. *)
Theorem process_gray_defined_iff_readable buf width height rowStride :
  is_int32 width -> is_int32 height -> is_int32 rowStride ->
  0 < width -> 0 < height -> 0 < rowStride ->
  (readable buf width height rowStride ->
   exists r, process_gray (Some buf) width height rowStride = Some r) /\
  (~ readable buf width height rowStride ->
   process_gray (Some buf) width height rowStride = None).
Proof.
  intros Iw Ih Ir Hw Hh Hr. split.
  - intros Hb.
    destruct (process_gray_valid buf width height rowStride) as (bs & _ & E).
    + exact (conj Iw (conj Ih (conj Ir (conj Hw (conj Hh (conj Hr Hb)))))).
    + eauto.
  - intros Hb. rewrite process_gray_samples by assumption.
    destruct (samples buf width height rowStride) as [bs|] eqn:Es; [|reflexivity].
    exfalso. apply Hb. unfold readable.
    destruct (read_all_In buf _ bs ((height - 1) * rowStride + (width - 1)) Es)
      as [v Hv].
    + apply In_region_offsets. exists (height - 1), (width - 1). lia.
    + apply read_u8_bound in Hv. lia.
Qed.

Lemma process_gray_defined_iff_readable_witness :
  (exists r, process_gray (Some [x01; x02; x03; x04; x05]) 2 2 3 = Some r) /\
  process_gray (Some [x01; x02; x03; x04]) 2 2 3 = None /\
  (exists r, process_gray (Some [x01; x02; x03]) 2 2 1 = Some r).
Proof.
  assert (I1 : is_int32 1) by (unfold is_int32; simpl; lia).
  assert (I2 : is_int32 2) by (unfold is_int32; simpl; lia).
  assert (I3 : is_int32 3) by (unfold is_int32; simpl; lia).
  split; [|split].
  - apply (proj1 (process_gray_defined_iff_readable [x01; x02; x03; x04; x05] 2 2 3
                    I2 I2 I3 ltac:(lia) ltac:(lia) ltac:(lia))).
    unfold readable. simpl. lia.
  - apply (proj2 (process_gray_defined_iff_readable [x01; x02; x03; x04] 2 2 3
                    I2 I2 I3 ltac:(lia) ltac:(lia) ltac:(lia))).
    unfold readable. simpl. lia.
  - apply (proj1 (process_gray_defined_iff_readable [x01; x02; x03] 2 2 1
                    I2 I2 I1 ltac:(lia) ltac:(lia) ltac:(lia))).
    unfold readable. simpl. lia.
Defined.

(** X2. On a valid input the routine performs exactly [2 * width * height]
    byte reads, none before the first byte of the buffer and none after
    offset [(height-1)*rowStride + width - 1]. *)
Theorem process_gray_read_footprint buf width height rowStride :
  valid_input buf width height rowStride ->
  exists offs,
    reads_of (Some buf) width height rowStride = Some offs /\
    Z.of_nat (length offs) = 2 * (width * height) /\
    forall o, In o offs -> 0 <= o <= (height - 1) * rowStride + width - 1.
Proof.
  intros V. destruct (valid_samples _ _ _ _ V) as (bs & Es).
  destruct V as (Iw & Ih & Ir & Hw & Hh & Hr & Hb).
  exists (region_offsets width height rowStride ++ region_offsets width height rowStride).
  split; [|split].
  - unfold reads_of. rewrite process_gray_m_folds, Es by assumption. simpl.
    rewrite app_nil_r, rev_app_distr, !rev_involutive. reflexivity.
  - rewrite length_app, length_region_offsets. lia.
  - intros o Ho. apply in_app_or in Ho.
    assert (Hi : In o (region_offsets width height rowStride)) by tauto.
    apply In_region_offsets in Hi. destruct Hi as (y & x & Hy & Hx & ->). nia.
Qed.

Lemma process_gray_read_footprint_witness :
  exists offs,
    reads_of (Some [x01; x02; x03; x04; x05]) 2 2 3 = Some offs /\
    Z.of_nat (length offs) = 2 * (2 * 2) /\
    forall o, In o offs -> 0 <= o <= (2 - 1) * 3 + 2 - 1.
Proof.
  apply (process_gray_read_footprint [x01; x02; x03; x04; x05] 2 2 3).
  unfold valid_input, is_int32, readable. simpl. lia.
Defined.

(** ** Shapes *)

Lemma zrange_app a : forall b i,
  zrange (a + b) i = zrange a i ++ zrange b (i + Z.of_nat a).
Proof.
  induction a as [|a IH]; intros b i.
  - simpl. now rewrite Z.add_0_r.
  - cbn [Nat.add zrange app]. rewrite IH. do 3 f_equal. lia.
Qed.

Lemma map_add_zrange c n : forall i,
  map (fun x => c + x) (zrange n i) = zrange n (c + i).
Proof.
  induction n as [|n IH]; intros i; [reflexivity|].
  cbn [zrange map]. rewrite IH. do 2 f_equal. lia.
Qed.

Lemma rows_unpadded n m : forall i,
  flat_map (fun y => map (fun x => y * Z.of_nat n + x) (zrange n 0)) (zrange m i) =
  zrange (m * n) (i * Z.of_nat n).
Proof.
  induction m as [|m IH]; intros i; [reflexivity|].
  cbn [zrange flat_map Nat.mul]. rewrite IH, zrange_app, map_add_zrange.
  do 2 f_equal; lia.
Qed.

Lemma region_offsets_unpadded w h :
  0 <= w -> 0 <= h -> region_offsets w h w = upto (w * h).
Proof.
  intros Hw Hh. unfold region_offsets, upto.
  pose proof (rows_unpadded (Z.to_nat w) (Z.to_nat h) 0) as E.
  rewrite Z2Nat.id in E by assumption. rewrite E.
  rewrite Z2Nat.inj_mul by assumption.
  f_equal. apply Nat.mul_comm.
Qed.

(** X3. Without row padding ([rowStride = width]) only the number of
    samples matters, not the shape: two geometries with the same product
    [width * height] over the same buffer give the same result, bit for
    bit. *)
Theorem process_gray_unpadded_shape buf w1 h1 w2 h2 :
  is_int32 w1 -> is_int32 h1 -> is_int32 w2 -> is_int32 h2 ->
  0 < w1 -> 0 < h1 -> 0 < w2 -> 0 < h2 ->
  w1 * h1 = w2 * h2 ->
  process_gray (Some buf) w1 h1 w1 = process_gray (Some buf) w2 h2 w2.
Proof.
  intros I1 J1 I2 J2 Hw1 Hh1 Hw2 Hh2 E.
  rewrite !process_gray_samples by assumption.
  unfold samples. rewrite !region_offsets_unpadded by lia. rewrite E. reflexivity.
Qed.

Lemma process_gray_unpadded_shape_witness :
  process_gray (Some [x01; x02; x03; x04; x05; x06]) 2 3 2 =
  process_gray (Some [x01; x02; x03; x04; x05; x06]) 6 1 6.
Proof.
  apply (process_gray_unpadded_shape [x01; x02; x03; x04; x05; x06] 2 3 6 1);
    try (unfold is_int32; simpl; lia); reflexivity.
Defined.

(** X4. For an image of a single row the row stride is not used: any two
    positive strides give the same result. *)
Theorem process_gray_single_row buf width rs1 rs2 :
  is_int32 width -> is_int32 rs1 -> is_int32 rs2 -> 0 < rs1 -> 0 < rs2 ->
  process_gray (Some buf) width 1 rs1 = process_gray (Some buf) width 1 rs2.
Proof.
  intros Iw I1 I2 H1 H2.
  assert (J : is_int32 1) by (unfold is_int32; simpl; lia).
  destruct (Z.le_gt_cases width 0) as [L|G].
  - unfold process_gray, process_gray_m.
    rewrite !degenerate_true by (right; left; exact L). reflexivity.
  - rewrite !process_gray_samples by (assumption || lia).
    unfold samples, region_offsets, upto. change (Z.to_nat 1) with 1%nat.
    cbn [zrange flat_map]. reflexivity.
Qed.

Lemma process_gray_single_row_witness :
  process_gray (Some [x01; x02; x03]) 3 1 3 = process_gray (Some [x01; x02; x03]) 3 1 64.
Proof.
  apply (process_gray_single_row [x01; x02; x03] 3 3 64);
    unfold is_int32; simpl; lia.
Defined.

(** X5. The zero result does not identify a rejected call: a valid image
    whose samples are all 0, of any size, returns the same struct
    [{0.0, 0.0}] as a call with a null buffer. *)
Theorem process_gray_black_image buf width height rowStride :
  valid_input buf width height rowStride ->
  (forall y x, 0 <= y < height -> 0 <= x < width ->
               read_u8 buf (y * rowStride + x) = Some x00) ->
  process_gray (Some buf) width height rowStride = Some zero_result /\
  process_gray None width height rowStride = Some zero_result.
Proof.
  intros V H0. split; [|reflexivity].
  destruct (process_gray_valid _ _ _ _ V) as (bs & Es & ->).
  pose proof (valid_count _ _ _ _ V) as HN.
  assert (Eb : bs = repeat x00 (length (region_offsets width height rowStride))).
  { unfold samples in Es. rewrite (read_all_const _ x00) in Es.
    - now inversion Es.
    - intros o Ho. apply In_region_offsets in Ho.
      destruct Ho as (y & x & Hy & Hx & ->). now apply H0. }
  rewrite Eb. rewrite (stats_const x00 _ (width * height)).
  - reflexivity.
  - destruct V as (_ & _ & _ & Hw & Hh & _). rewrite length_region_offsets. lia.
  - exact HN.
  - change (u8 x00) with 0. lia.
Qed.

Lemma process_gray_black_image_witness :
  process_gray (Some [x00; x00; x07; x00; x00]) 2 2 3 = Some zero_result /\
  process_gray None 2 2 3 = Some zero_result.
Proof.
  apply (process_gray_black_image [x00; x00; x07; x00; x00] 2 2 3).
  - unfold valid_input, is_int32, readable. simpl. lia.
  - intros y x Hy Hx.
    assert (Y : y = 0 \/ y = 1) by lia. assert (X : x = 0 \/ x = 1) by lia.
    destruct Y, X; subst; reflexivity.
Defined.

(** ** Order of the samples *)

Lemma total_perm l1 l2 : Permutation l1 l2 -> total l1 = total l2.
Proof.
  induction 1; cbn [total]; lia.
Qed.

(** X6. While [255 * width * height < 2^53] the mean does not depend on the
    order of the samples: two valid inputs whose regions hold the same
    samples in any order (a transposed or mirrored image, another stride)
    return the same mean. *)
Theorem process_gray_mean_order buf1 w1 h1 rs1 buf2 w2 h2 rs2 bs1 bs2 :
  valid_input buf1 w1 h1 rs1 -> valid_input buf2 w2 h2 rs2 ->
  samples buf1 w1 h1 rs1 = Some bs1 -> samples buf2 w2 h2 rs2 = Some bs2 ->
  Permutation bs1 bs2 ->
  255 * (w1 * h1) < 2 ^ 53 ->
  exists r1 r2, process_gray (Some buf1) w1 h1 rs1 = Some r1 /\
                process_gray (Some buf2) w2 h2 rs2 = Some r2 /\
                a r1 = a r2.
Proof.
  intros V1 V2 E1 E2 P Hb.
  destruct (process_gray_valid _ _ _ _ V1) as (bs1' & E1' & ->).
  destruct (process_gray_valid _ _ _ _ V2) as (bs2' & E2' & ->).
  rewrite E1 in E1'. rewrite E2 in E2'. inversion E1'. inversion E2'. subst bs1' bs2'.
  do 2 eexists. split; [reflexivity|]. split; [reflexivity|].
  assert (L1 : Z.of_nat (length bs1) = w1 * h1).
  { destruct V1 as (_ & _ & _ & Hw & Hh & _).
    apply (length_samples buf1 w1 h1 rs1); [lia | lia | exact E1]. }
  assert (L2 : Z.of_nat (length bs2) = w2 * h2).
  { destruct V2 as (_ & _ & _ & Hw & Hh & _).
    apply (length_samples buf2 w2 h2 rs2); [lia | lia | exact E2]. }
  assert (EN : w2 * h2 = w1 * h1).
  { rewrite <- L1, <- L2. f_equal. symmetry. now apply Permutation_length. }
  cbn [stats a]. unfold spec_mean, spec_mean_double. rewrite EN.
  pose proof (total_bounds bs1). pose proof (total_bounds bs2).
  rewrite !double_sum_exact by lia.
  rewrite (total_perm _ _ P). reflexivity.
Qed.

Lemma process_gray_mean_order_witness :
  exists r1 r2, process_gray (Some [x01; x02; x03; x04]) 2 2 2 = Some r1 /\
                process_gray (Some [x01; x03; x02; x04]) 2 2 2 = Some r2 /\
                a r1 = a r2.
Proof.
  assert (V1 : valid_input [x01; x02; x03; x04] 2 2 2)
    by (unfold valid_input, is_int32, readable; simpl; lia).
  assert (V2 : valid_input [x01; x03; x02; x04] 2 2 2)
    by (unfold valid_input, is_int32, readable; simpl; lia).
  apply (process_gray_mean_order [x01; x02; x03; x04] 2 2 2
           [x01; x03; x02; x04] 2 2 2 [x01; x02; x03; x04] [x01; x03; x02; x04]
           V1 V2 eq_refl eq_refl).
  - apply perm_skip. apply perm_swap.
  - vm_compute. reflexivity.
Defined.

(** ** Lower bounds survive rounding *)

Lemma F64_div_nat53_ge S N K :
  0 < S < 2 ^ 53 -> 0 < N < 2 ^ 53 -> 0 <= K -> K * N <= S ->
  normal_ge 53 (-105) K (F64.div (double_of_nat53 S) (double_of_nat53 N)).
Proof.
  intros HS HN HK0 HK.
  rewrite F64_div_nat53 by assumption. cbv zeta.
  pose proof (Zdigits2_le53 _ HS) as DS.
  pose proof (Zdigits2_le53 _ HN) as DN.
  pose proof (double_of_nat53_digits S HS) as BS.
  pose proof (double_of_nat53_digits N HN) as BN.
  set (dS := Zdigits2 S) in *. set (dN := Zdigits2 N) in *.
  set (mx := S * 2 ^ (53 - dS)) in *.
  set (my := N * 2 ^ (53 - dN)) in *.
  set (e' := dS - dN - 53).
  set (q := mx * 2 ^ 53 / my).
  set (r := (mx * 2 ^ 53) mod my).
  assert (Hq : 2 ^ 52 <= q < 2 ^ 54).
  { split.
    - apply Z.div_le_lower_bound; lia.
    - apply Z.div_lt_upper_bound; lia. }
  assert (Hn : exists n, 0 <= n <= 1 /\ 2 ^ (52 + n) <= q < 2 ^ (53 + n)).
  { destruct (Z.lt_ge_cases q (2 ^ 53)); [exists 0 | exists 1]; simpl; lia. }
  destruct Hn as (n & Hn & Bq).
  set (K0 := K * 2 ^ (- e')).
  assert (HA : my * K0 <= mx * 2 ^ 53).
  { unfold mx, my, K0, e'.
    replace (S * 2 ^ (53 - dS) * 2 ^ 53) with (S * 2 ^ (106 - dS)).
    2:{ rewrite <- Z.mul_assoc, <- Z.pow_add_r by lia. do 2 f_equal. lia. }
    replace (N * 2 ^ (53 - dN) * (K * 2 ^ (- (dS - dN - 53))))
      with (K * N * 2 ^ (106 - dS)).
    2:{ replace (N * 2 ^ (53 - dN) * (K * 2 ^ (- (dS - dN - 53))))
          with (K * N * (2 ^ (53 - dN) * 2 ^ (- (dS - dN - 53)))) by ring.
        rewrite <- Z.pow_add_r by lia. do 2 f_equal. lia. }
    pose proof (pow2_pos (106 - dS) ltac:(lia)). nia. }
  assert (Hq0 : K0 <= q) by (apply Z.div_le_lower_bound; lia).
  set (l := new_location my r).
  pose proof (loc_bits_range l) as Bl.
  pose proof (pow2_pos n ltac:(lia)) as Pn.
  set (G := K * 2 ^ (- e' - n)).
  assert (EG : K0 = G * 2 ^ n).
  { unfold K0, G. rewrite <- Z.mul_assoc, <- Z.pow_add_r by (unfold e'; lia).
    do 2 f_equal. lia. }
  rewrite (binary_round_aux_spec 53 1024 ltac:(lia) false q e' l (53 + n));
    [|lia|replace (53 + n - 1) with (52 + n) by lia; exact Bq|unfold emin, e'; lia].
  replace (Z.max 0 (53 + n - 53)) with n by lia.
  set (m1 := rne (4 * q + loc_bits l) (n + 2)).
  assert (L1 : G <= m1).
  { apply rne_ge; [lia|]. rewrite Z.pow_add_r by lia. change (2 ^ 2) with 4. lia. }
  assert (L2 : 2 ^ 52 <= m1).
  { apply rne_ge; [lia|].
    rewrite Z.pow_add_r in Bq by lia.
    rewrite Z.pow_add_r by lia. change (2 ^ 2) with 4. lia. }
  assert (U1 : m1 <= 2 ^ 53).
  { pose proof (rne_bounds (4 * q + loc_bits l) (n + 2) ltac:(lia)) as B.
    rewrite quot_loc_div in B by lia. fold m1 in B.
    assert (q / 2 ^ n < 2 ^ 53).
    { apply Z.div_lt_upper_bound; [lia|]. rewrite <- Z.pow_add_r by lia.
      replace (n + 53) with (53 + n) by lia. lia. }
    lia. }
  assert (EK : G * 2 ^ (e' + n + 105) = K * 2 ^ 105).
  { unfold G. rewrite <- Z.mul_assoc, <- Z.pow_add_r by (unfold e'; lia).
    do 2 f_equal. lia. }
  pose proof (pow2_pos (e' + n + 105) ltac:(unfold e'; lia)) as PE.
  destruct (Z.ltb_spec m1 (2 ^ 53)) as [C|C].
  - rewrite mk_float_finite by (unfold e'; lia).
    exists (Z.to_pos m1), (e' + n). rewrite Z2Pos.id by lia.
    split; [reflexivity|]. split; [simpl; lia|]. split; [unfold e'; lia|].
    replace (e' + n - -105) with (e' + n + 105) by lia.
    change (- -105) with 105. nia.
  - rewrite mk_float_finite by (unfold e'; simpl; lia).
    exists (Z.to_pos (2 ^ (53 - 1))), (e' + n + 1).
    split; [reflexivity|]. split; [simpl; lia|]. split; [unfold e'; lia|].
    replace (e' + n + 1 - -105) with (e' + n + 105 + 1) by lia.
    change (- -105) with 105. rewrite pow2_succ by lia.
    change (Zpos (Z.to_pos (2 ^ (53 - 1)))) with (2 ^ 52). nia.
Qed.

Lemma of_double_normal_ge lo K Khi x :
  -149 <= lo <= 0 -> Khi < 2 ^ 23 -> 0 <= K ->
  normal_le 53 lo Khi x -> normal_ge 53 lo K x ->
  normal_ge 24 lo K (F32.of_double x).
Proof.
  intros Hlo HK HK0 H (m' & e' & Ex & _ & _ & Hv).
  destruct (normal_le_exponent 53 lo Khi 23 x ltac:(lia) ltac:(lia) ltac:(lia) HK H)
    as (m & e & -> & Bm & He & He' & _).
  inversion Ex; subst m' e'. clear Ex.
  cbn [F32.of_double cond_Zopp binary_normalize]. unfold F32.prec, F32.emax.
  rewrite (binary_round_inexact 24 128 ltac:(lia) false m e 53);
    [|apply digits2_pos_unique; exact Bm|lia|unfold emin; lia].
  cbv zeta. change (53 - 24) with 29.
  pose proof (pow2_pos (e - lo) ltac:(lia)) as P1.
  pose proof (pow2_pos (- e) ltac:(lia)) as P2.
  assert (Hm : K * 2 ^ (- e) <= Zpos m).
  { replace (- lo) with (- e + (e - lo)) in Hv by lia.
    rewrite Z.pow_add_r in Hv by lia. nia. }
  set (G := K * 2 ^ (- e - 29)).
  assert (EG : K * 2 ^ (- e) = G * 2 ^ 29).
  { unfold G. rewrite <- Z.mul_assoc, <- Z.pow_add_r by lia. do 2 f_equal. lia. }
  set (m1 := rne (Zpos m) 29).
  assert (L1 : G <= m1) by (apply rne_ge; lia).
  assert (L2 : 2 ^ 23 <= m1).
  { apply rne_ge; [lia|]. change (2 ^ 23 * 2 ^ 29) with (2 ^ 52). simpl in Bm. lia. }
  assert (U1 : m1 <= 2 ^ 24).
  { pose proof (rne_bounds (Zpos m) 29 ltac:(lia)) as B. fold m1 in B.
    assert (Zpos m / 2 ^ 29 < 2 ^ 24).
    { apply Z.div_lt_upper_bound; [lia|]. change (2 ^ 29 * 2 ^ 24) with (2 ^ 53). lia. }
    lia. }
  assert (EK : G * 2 ^ (e + 29 - lo) = K * 2 ^ (- lo)).
  { unfold G. rewrite <- Z.mul_assoc, <- Z.pow_add_r by lia. do 2 f_equal. lia. }
  pose proof (pow2_pos (e + 29 - lo) ltac:(lia)) as PE.
  destruct (Z.ltb_spec m1 (2 ^ 24)) as [C|C].
  - rewrite mk_float_finite by lia.
    exists (Z.to_pos m1), (e + 29). rewrite Z2Pos.id by lia.
    split; [reflexivity|]. split; [simpl; lia|]. split; [lia|]. nia.
  - rewrite mk_float_finite by (simpl; lia).
    exists (Z.to_pos (2 ^ (24 - 1))), (e + 29 + 1).
    split; [reflexivity|]. split; [simpl; lia|]. split; [lia|].
    replace (e + 29 + 1 - lo) with (e + 29 - lo + 1) by lia.
    rewrite pow2_succ by lia.
    change (Zpos (Z.to_pos (2 ^ (24 - 1)))) with (2 ^ 23). nia.
Qed.

(** ** Comparison with a small integer *)

Lemma Zdigits2_le24 n : 0 < n < 2 ^ 24 -> 0 < Zdigits2 n <= 24.
Proof.
  intros H. pose proof (Zdigits2_bounds n ltac:(lia)) as B.
  split; [apply Zdigits2_pos; lia|].
  destruct (Z.le_gt_cases (Zdigits2 n) 24) as [|G]; [assumption|].
  assert (2 ^ 24 <= 2 ^ (Zdigits2 n - 1)) by (apply pow2_le; lia). lia.
Qed.

Lemma F32_of_int_small K :
  0 < K < 2 ^ 24 ->
  F32.of_int K =
  S754_finite false (Z.to_pos (K * 2 ^ (24 - Zdigits2 K))) (Zdigits2 K - 24).
Proof.
  intros HK. pose proof (Zdigits2_le24 K HK) as D.
  unfold F32.of_int. destruct K as [|p|p]; try lia.
  cbn [binary_normalize].
  pose proof (binary_round_exact 24 128 ltac:(lia) false p (Zpos p) 0 0) as E.
  change (0 - 0) with 0 in E. rewrite Z.pow_0_r, Z.mul_1_r in E.
  unfold F32.prec, F32.emax. rewrite E; try lia; try (unfold emin; lia).
  unfold norm. rewrite mk_float_finite; [reflexivity| |lia].
  pose proof (pow2_pos (24 - Zdigits2 (Zpos p)) ltac:(lia)). nia.
Qed.

Lemma normal_le_of_int lo K x :
  lo <= 0 -> 0 < K < 2 ^ 24 -> normal_le 24 lo K x ->
  SFleb x (F32.of_int K) = true.
Proof.
  intros Hlo HK H.
  pose proof (Zdigits2_le24 K HK) as D.
  pose proof (Zdigits2_bounds K ltac:(lia)) as BK.
  destruct (normal_le_exponent 24 lo K (Zdigits2 K) x ltac:(lia) Hlo ltac:(lia)
              ltac:(lia) H) as (m & e & -> & Bm & He & He' & Hv).
  rewrite F32_of_int_small by assumption.
  set (d := Zdigits2 K) in *.
  pose proof (pow2_pos (24 - d) ltac:(lia)) as P0.
  unfold SFleb. cbn [SFcompare].
  destruct (Z.compare_spec e (d - 24)) as [E|L|G]; [| reflexivity | lia].
  subst e. rewrite Pos.compare_cont_spec. cbn [Pos.switch_Eq].
  pose proof (pow2_pos (d - 24 - lo) ltac:(lia)) as P1.
  assert (Hm : Zpos m <= K * 2 ^ (24 - d)).
  { replace (- lo) with (24 - d + (d - 24 - lo)) in Hv by lia.
    rewrite Z.pow_add_r in Hv by lia. nia. }
  destruct (Pos.compare_spec m (Z.to_pos (K * 2 ^ (24 - d)))) as [E|L|G];
    [reflexivity | reflexivity | lia].
Qed.

Lemma normal_ge_of_int lo K x :
  lo <= 0 -> 0 < K < 2 ^ 24 -> normal_ge 24 lo K x ->
  SFleb (F32.of_int K) x = true.
Proof.
  intros Hlo HK (m & e & -> & Bm & He & Hv).
  pose proof (Zdigits2_le24 K HK) as D.
  pose proof (Zdigits2_bounds K ltac:(lia)) as BK.
  rewrite F32_of_int_small by assumption.
  set (d := Zdigits2 K) in *.
  pose proof (pow2_pos (24 - d) ltac:(lia)) as P0.
  pose proof (pow2_pos (e - lo) ltac:(lia)) as P1.
  pose proof (pow2_pos (- lo) ltac:(lia)) as P2.
  assert (Le : d - 24 <= e).
  { assert (L : 2 ^ (d - 1 + - lo) < 2 ^ (24 + (e - lo))).
    { rewrite !Z.pow_add_r by lia. nia. }
    apply pow2_lt_inv in L; lia. }
  unfold SFleb. cbn [SFcompare].
  destruct (Z.compare_spec (d - 24) e) as [E|L|G]; [| reflexivity | lia].
  subst e. rewrite Pos.compare_cont_spec. cbn [Pos.switch_Eq].
  pose proof (pow2_pos (d - 24 - lo) ltac:(lia)) as P3.
  assert (Hm : K * 2 ^ (24 - d) <= Zpos m).
  { replace (- lo) with (24 - d + (d - 24 - lo)) in Hv by lia.
    rewrite Z.pow_add_r in Hv by lia. nia. }
  destruct (Pos.compare_spec (Z.to_pos (K * 2 ^ (24 - d))) m) as [E|L|G];
    [reflexivity | reflexivity | lia].
Qed.

(** ** The mean lies between the extreme samples *)

Lemma total_between lo hi l :
  Forall (fun v => lo <= u8 v <= hi) l ->
  lo * Z.of_nat (length l) <= total l <= hi * Z.of_nat (length l).
Proof.
  induction 1 as [|v l Hv _ IH]; [simpl; lia|].
  cbn [total length]. lia.
Qed.

Lemma spec_mean_between l N lo hi :
  Z.of_nat (length l) = N -> 0 < N -> 255 * N < 2 ^ 53 ->
  0 <= lo -> hi <= 255 ->
  Forall (fun v => lo <= u8 v <= hi) l ->
  SFleb (F32.of_int lo) (spec_mean l N) = true /\
  SFleb (spec_mean l N) (F32.of_int hi) = true.
Proof.
  intros HL HN Hb Hlo Hhi HF.
  pose proof (total_between lo hi l HF) as T. rewrite HL in T.
  assert (Hlh : lo <= hi) by nia.
  split.
  - (* from below *)
    destruct (Z.eq_dec lo 0) as [->|NZ].
    + apply has_sign_false_ge_0, spec_mean_nonneg. lia.
    + unfold spec_mean, spec_mean_double. rewrite double_sum_exact by nia.
      rewrite !of_int_nat53 by nia.
      apply (normal_ge_of_int (-105)); [lia|simpl; lia|].
      apply (of_double_normal_ge (-105) lo hi); [lia|simpl; lia|lia| |].
      * apply F64_div_nat53_le; nia.
      * apply F64_div_nat53_ge; nia.
  - (* from above *)
    unfold spec_mean, spec_mean_double. rewrite double_sum_exact by nia.
    destruct (Z.eq_dec (total l) 0) as [->|NZ].
    + rewrite of_int_0, F64_div_zero by (apply of_int_pos_finite; lia).
      cbn [F32.of_double].
      destruct (Z.eq_dec hi 0) as [->|NH]; [reflexivity|].
      rewrite F32_of_int_small by (simpl; lia). reflexivity.
    + rewrite !of_int_nat53 by nia.
      apply (normal_le_of_int (-105)); [lia|simpl; nia|].
      apply of_double_normal_le; [lia|simpl; lia|].
      apply F64_div_nat53_le; nia.
Qed.

Lemma read_all_Forall (P : byte -> Prop) buf offs : forall bs,
  read_all buf offs = Some bs ->
  (forall o v, In o offs -> read_u8 buf o = Some v -> P v) ->
  Forall P bs.
Proof.
  induction offs as [|o offs IH]; intros bs E H; simpl in E.
  - inversion E. constructor.
  - destruct (read_u8 buf o) as [v|] eqn:R; [|discriminate].
    destruct (read_all buf offs) as [bs'|]; [|discriminate].
    inversion E. constructor.
    + apply (H o); [left; reflexivity | exact R].
    + apply IH; [reflexivity|]. intros o' v' Ho'. apply H. right. exact Ho'.
Qed.

(** X7. While [255 * width * height < 2^53] the returned mean lies between
    the smallest and the largest sample of the region: if every sample is at
    least [lo] and at most [hi], so is the mean. *)
Theorem process_gray_mean_between buf width height rowStride lo hi :
  valid_input buf width height rowStride ->
  255 * (width * height) < 2 ^ 53 ->
  0 <= lo -> hi <= 255 ->
  (forall y x v, 0 <= y < height -> 0 <= x < width ->
                 read_u8 buf (y * rowStride + x) = Some v -> lo <= u8 v <= hi) ->
  exists r, process_gray (Some buf) width height rowStride = Some r /\
            SFleb (F32.of_int lo) (a r) = true /\
            SFleb (a r) (F32.of_int hi) = true.
Proof.
  intros V Hb Hlo Hhi Hs.
  destruct (process_gray_valid _ _ _ _ V) as (bs & Es & E).
  pose proof (valid_count _ _ _ _ V) as HN.
  exists (stats bs (width * height)). split; [exact E|]. cbn [stats a].
  apply spec_mean_between; try lia.
  - destruct V as (_ & _ & _ & Hw & Hh & _).
    apply (length_samples buf width height rowStride); [lia | lia | exact Es].
  - apply (read_all_Forall _ buf (region_offsets width height rowStride)); [exact Es|].
    intros o v Ho R. apply In_region_offsets in Ho.
    destruct Ho as (y & x & Hy & Hx & ->). now apply (Hs y x).
Qed.

Lemma process_gray_mean_between_witness :
  exists r, process_gray (Some [x0a; x14; x63; x1e; x0f; x63]) 2 2 3 = Some r /\
            SFleb (F32.of_int 10) (a r) = true /\
            SFleb (a r) (F32.of_int 30) = true.
Proof.
  apply (process_gray_mean_between [x0a; x14; x63; x1e; x0f; x63] 2 2 3 10 30).
  - unfold valid_input, is_int32, readable. simpl. lia.
  - vm_compute. reflexivity.
  - lia.
  - lia.
  - intros y x v Hy Hx.
    assert (Y : y = 0 \/ y = 1) by lia. assert (X : x = 0 \/ x = 1) by lia.
    destruct Y, X; subst; intros R; inversion R; vm_compute; split; discriminate.
Defined.
